(** * QualityMeasuresProcessor: the fixed-width decoder and its batch loop

    A shallow embedding of [quality_measures_processor.go] and the
    properties of its schema loader ([getSchema]), its fixed-width decoder
    ([getRecordJson]) and its batch coordinator ([main]).

    Conventions of the embedding:
    - a Go [string] is a sequence of bytes: Rocq's [string], one [ascii]
      per byte;
    - a Go [int] is the 64-bit signed integer of the amd64 port: a [Z]
      kept in range by [wrap] after every addition;
    - a Go function returning [(T, error)] returns a pair whose second
      component is [None] for the nil error;
    - logging, file access and the HTTP post are events of a trace; a
      run-time panic ends the computation ([Panicked]). *)

From Stdlib Require Import ZArith Ascii String List Lia Bool.
From stdpp Require Import base tactics option list strings gmap sorting pretty.

Local Open Scope Z_scope.

(** ** Go strings as byte sequences *)

Module GoString.

Definition bytes (s : string) : list ascii := list_ascii_of_string s.
Definition of_bytes (l : list ascii) : string := string_of_list_ascii l.

(** the value of a byte, 0..255 *)
Definition byte (c : ascii) : Z := Z.of_N (N_of_ascii c).

(** [len(s)] *)
Definition len (s : string) : Z := Z.of_nat (String.length s).

(** [s[lo:hi]]: the bytes lo..hi-1; Go panics ("slice bounds out of
    range") unless [0 <= lo <= hi <= len(s)], which is [None] here. *)
Definition slice (s : string) (lo hi : Z) : option string :=
  if decide (0 <= lo /\ lo <= hi /\ hi <= len s)
  then Some (of_bytes (take (Z.to_nat (hi - lo)) (drop (Z.to_nat lo) (bytes s))))
  else None.

(** [strings.LastIndex(s, sep)] for a one-byte separator: the index of
    the last occurrence of the byte, or -1. *)
Fixpoint LastIndex_go (l : list ascii) (c : ascii) (i : Z) (found : Z) : Z :=
  match l with
  | [] => found
  | b :: l' => LastIndex_go l' c (i + 1) (if decide (b = c) then i else found)
  end.

Definition LastIndex (s : string) (c : ascii) : Z :=
  LastIndex_go (bytes s) c 0 (-1).

End GoString.

Import GoString.

(** ** Go's [int] *)

Definition max_int : Z := 2 ^ 63 - 1.
Definition min_int : Z := - 2 ^ 63.

(** two's complement wrap-around of a 64-bit signed result *)
Definition wrap (z : Z) : Z := (z + 2 ^ 63) mod 2 ^ 64 - 2 ^ 63.

Definition is_int (z : Z) : Prop := min_int <= z <= max_int.

Global Instance is_int_dec z : Decision (is_int z).
Proof. unfold is_int. apply _. Defined.

(** a string of a running Go program holds at most [max_int] bytes *)
Definition go_string (s : string) : Prop := len s <= max_int.

(** ** unicode/utf8 and unicode.IsSpace *)

Module utf8.

Definition RuneError : Z := 65533.   (* U+FFFD *)
Definition RuneSelf : Z := 128.
Definition UTFMax : nat := 4.

Definition continuation (b : Z) : bool := (128 <=? b) && (b <=? 191).

(** [utf8.DecodeRuneInString]: the first rune of the byte sequence and
    its width; an invalid or short encoding is [(RuneError, 1)], the
    empty sequence [(RuneError, 0)]. The accepted second-byte range
    depends on the first byte, as in Go's [acceptRanges]. *)
Definition DecodeRune (l : list ascii) : Z * nat :=
  match byte <$> l with
  | [] => (RuneError, 0%nat)
  | s0 :: rest =>
      if s0 <? RuneSelf then (s0, 1%nat)
      else if (s0 <? 194) || (244 <? s0) then (RuneError, 1%nat)
      else
        let sz : nat := if s0 <? 224 then 2%nat else if s0 <? 240 then 3%nat else 4%nat in
        let lo := if s0 =? 224 then 160 else if s0 =? 240 then 144 else 128 in
        let hi := if s0 =? 237 then 159 else if s0 =? 244 then 143 else 191 in
        if (length l <? sz)%nat then (RuneError, 1%nat)
        else
          match rest with
          | s1 :: rest1 =>
              if (s1 <? lo) || (hi <? s1) then (RuneError, 1%nat)
              else if (sz <=? 2)%nat
              then (Z.lor (Z.shiftl (Z.land s0 31) 6) (Z.land s1 63), 2%nat)
              else
                match rest1 with
                | s2 :: rest2 =>
                    if negb (continuation s2) then (RuneError, 1%nat)
                    else if (sz <=? 3)%nat
                    then (Z.lor (Z.shiftl (Z.land s0 15) 12)
                            (Z.lor (Z.shiftl (Z.land s1 63) 6) (Z.land s2 63)), 3%nat)
                    else
                      match rest2 with
                      | s3 :: _ =>
                          if negb (continuation s3) then (RuneError, 1%nat)
                          else (Z.lor (Z.shiftl (Z.land s0 7) 18)
                                  (Z.lor (Z.shiftl (Z.land s1 63) 12)
                                     (Z.lor (Z.shiftl (Z.land s2 63) 6) (Z.land s3 63))), 4%nat)
                      | [] => (RuneError, 1%nat)
                      end
                | [] => (RuneError, 1%nat)
                end
          | [] => (RuneError, 1%nat)
          end
  end.

(** [utf8.RuneStart] *)
Definition RuneStart (b : Z) : bool := negb (Z.land b 192 =? 128).

(** the backwards scan of [DecodeLastRuneInString]: from [start], at
    most [n] steps down to [lim], stopping at a byte that can start a
    rune; [start] may end at [lim - 1] *)
Fixpoint scan_back (l : list ascii) (n : nat) (start lim : Z) : Z :=
  match n with
  | O => start
  | S n' =>
      if start <? lim then start
      else
        match l !! Z.to_nat start with
        | Some b => if RuneStart (byte b) then start else scan_back l n' (start - 1) lim
        | None => start
        end
  end.

(** [utf8.DecodeLastRuneInString] *)
Definition DecodeLastRune (l : list ascii) : Z * nat :=
  let e := Z.of_nat (length l) in
  match last l with
  | None => (RuneError, 0%nat)
  | Some b =>
      if byte b <? RuneSelf then (byte b, 1%nat)
      else
        let lim := Z.max 0 (e - Z.of_nat UTFMax) in
        let start := Z.max 0 (scan_back l UTFMax (e - 2) lim) in
        let '(r, size) := DecodeRune (drop (Z.to_nat start) l) in
        if start + Z.of_nat size =? e then (r, size) else (RuneError, 1%nat)
  end.

End utf8.

Module unicode.

(** [unicode.IsSpace]: the Latin-1 spaces, then the White_Space table *)
Definition IsSpace (r : Z) : bool :=
  if r <=? 255
  then (r =? 9) || (r =? 10) || (r =? 11) || (r =? 12) || (r =? 13)
       || (r =? 32) || (r =? 133) || (r =? 160)
  else (r =? 5760) || ((8192 <=? r) && (r <=? 8202)) || (r =? 8232) || (r =? 8233)
       || (r =? 8239) || (r =? 8287) || (r =? 12288).

End unicode.

(** ** strings.TrimSpace *)

Module strings.

(** [TrimLeftFunc(s, unicode.IsSpace)]: drop leading white-space runes;
    every step consumes at least one byte, [fuel] is the length *)
Fixpoint TrimLeft (fuel : nat) (l : list ascii) : list ascii :=
  match fuel with
  | O => l
  | S fuel' =>
      let '(r, size) := utf8.DecodeRune l in
      if (0 <? size)%nat && unicode.IsSpace r then TrimLeft fuel' (drop size l) else l
  end.

(** [TrimRightFunc(s, unicode.IsSpace)] *)
Fixpoint TrimRight (fuel : nat) (l : list ascii) : list ascii :=
  match fuel with
  | O => l
  | S fuel' =>
      let '(r, size) := utf8.DecodeLastRune l in
      if (0 <? size)%nat && unicode.IsSpace r
      then TrimRight fuel' (take (length l - size) l) else l
  end.

(** [strings.TrimSpace(s)] = [TrimFunc(s, unicode.IsSpace)] *)
Definition TrimSpace (s : string) : string :=
  let l := TrimLeft (String.length s) (bytes s) in
  of_bytes (TrimRight (length l) l).

End strings.

(** ** Errors, and strconv *)

Inductive numErr := ErrSyntax | ErrRange.

(** The error values the program can hold. *)
Inductive error :=
| NumError (Func Num : string) (Err : numErr)   (* *strconv.NumError *)
| errorString (s : string)                       (* errors.New(s) *)
| UnsupportedTypeError (type : string)           (* *json.UnsupportedTypeError *)
| ioError (msg : string).                        (* from the os, csv, bufio and http packages *)

Global Instance numErr_eq_dec : EqDecision numErr.
Proof. solve_decision. Defined.
Global Instance error_eq_dec : EqDecision error.
Proof. solve_decision. Defined.

Module strconv.

(** [strconv.ParseBool] *)
Definition ParseBool (str : string) : bool * option error :=
  if bool_decide (str ∈ ["1"; "t"; "T"; "true"; "TRUE"; "True"]) then (true, None)
  else if bool_decide (str ∈ ["0"; "f"; "F"; "false"; "FALSE"; "False"]) then (false, None)
  else (false, Some (NumError "ParseBool" str ErrSyntax)).

Definition maxUint64 : Z := 2 ^ 64 - 1.

(** the digit loop of [ParseUint(s, 10, 64)]: a byte that is not a
    decimal digit is a syntax error, a value above [maxUint64] a range
    error, whichever comes first from the left *)
Fixpoint digits (l : list ascii) (n : Z) : Z * option numErr :=
  match l with
  | [] => (n, None)
  | c :: l' =>
      let d := byte c - 48 in
      if (d <? 0) || (9 <? d) then (0, Some ErrSyntax)
      else if maxUint64 <? n * 10 + d then (maxUint64, Some ErrRange)
      else digits l' (n * 10 + d)
  end.

(** [strconv.Atoi(s)], that is [ParseInt(s, 10, 0)] with its errors
    renamed; the fast path of Atoi for short strings computes the same
    results. On a range error the nearest bound is returned with it. *)
Definition Atoi (s : string) : Z * option error :=
  let syntax := (0, Some (NumError "Atoi" s ErrSyntax)) in
  match bytes s with
  | [] => syntax
  | c :: l =>
      let neg := bool_decide (c = "-"%char) in
      let l := if bool_decide (c = "+"%char) || neg then l else c :: l in
      match l with
      | [] => syntax
      | _ =>
          match digits l 0 with
          | (_, Some ErrSyntax) => syntax
          | (un, _) =>
              if negb neg && (2 ^ 63 <=? un) then (max_int, Some (NumError "Atoi" s ErrRange))
              else if neg && (2 ^ 63 <? un) then (min_int, Some (NumError "Atoi" s ErrRange))
              else (if neg then - un else un, None)
          end
      end
  end.

(** [strconv.Itoa] *)
Definition Itoa (n : Z) : string := pretty n.

End strconv.

(** ** The values of [interface{}], and encoding/json *)

(** [data] in [getRecordJson] is a [map[string]interface{}]. An
    [interface{}] can hold a value of any type; besides the three kinds
    the program stores, the nil interface and a function value stand for
    what [json.Marshal] encodes as [null] and what it refuses. *)
Inductive value :=
| VString (s : string)
| VInt (n : Z)
| VBool (b : bool)
| VNil
| VFunc.

Global Instance value_eq_dec : EqDecision value.
Proof. solve_decision. Defined.

Module json.

Definition hex (n : Z) : ascii :=
  nth (Z.to_nat n) (bytes "0123456789abcdef") "0"%char.

(** [htmlSafeSet]: the ASCII bytes written as they are *)
Definition htmlSafe (b : Z) : bool :=
  (32 <=? b) && negb ((b =? 34) || (b =? 92) || (b =? 60) || (b =? 62) || (b =? 38)).

(** the body of [encodeState.string(s, escapeHTML = true)] (Go 1.13):
    short escapes for the quote, the backslash, newline, carriage
    return and tab, [\u00XX] for the other control bytes and for
    [<], [>], [&]; [\ufffd] for a byte that is not valid UTF-8;
    U+2028 and U+2029 escaped; everything else copied. *)
Fixpoint escape (fuel : nat) (l : list ascii) : list ascii :=
  match fuel, l with
  | S fuel', c :: l' =>
      let b := byte c in
      if b <? utf8.RuneSelf then
        if htmlSafe b then c :: escape fuel' l'
        else
          let e :=
            if (b =? 92) || (b =? 34) then [c]
            else if b =? 10 then ["n"%char]
            else if b =? 13 then ["r"%char]
            else if b =? 9 then ["t"%char]
            else bytes "u00" ++ [hex (Z.shiftr b 4); hex (Z.land b 15)] in
          "092"%char :: e ++ escape fuel' l'
      else
        let '(r, size) := utf8.DecodeRune l in
        if (r =? utf8.RuneError) && (size =? 1)%nat
        then bytes "\ufffd" ++ escape fuel' l'
        else if (r =? 8232) || (r =? 8233)
        then bytes "\u202" ++ hex (Z.land r 15) :: escape fuel' (drop size l)
        else take size l ++ escape fuel' (drop size l)
  | _, _ => []
  end.

Definition dquote : string := String "034" EmptyString.

Definition quote (s : string) : string :=
  dquote +:+ of_bytes (escape (String.length s) (bytes s)) +:+ dquote.

(** one value of the map *)
Definition encode (v : value) : string * option error :=
  match v with
  | VString s => (quote s, None)
  | VInt n => (strconv.Itoa n, None)
  | VBool b => (if b then "true" else "false", None)
  | VNil => ("null", None)
  | VFunc => (EmptyString, Some (UnsupportedTypeError "func()"))
  end.

(** the members of the object, keys in sorted order *)
Fixpoint members (m : gmap string value) (keys : list string) : string * option error :=
  match keys with
  | [] => (EmptyString, None)
  | k :: keys' =>
      let '(v, err) := encode (default VNil (m !! k)) in
      match err with
      | Some e => (EmptyString, Some e)
      | None =>
          let '(rest, err') := members m keys' in
          match err' with
          | Some e => (EmptyString, Some e)
          | None =>
              (quote k +:+ ":" +:+ v +:+ (if decide (keys' = []) then EmptyString else ",") +:+ rest, None)
          end
      end
  end.

(** [json.Marshal] of a non-nil [map[string]interface{}]: an object
    whose keys are sorted as byte strings; [(nil, err)] if a value
    cannot be encoded. *)
Definition Marshal (m : gmap string value) : string * option error :=
  let '(body, err) := members m (merge_sort String.le (map_to_list m).*1) in
  match err with
  | Some e => (EmptyString, Some e)
  | None => ("{" +:+ body +:+ "}", None)
  end.

End json.

(** ** The program's effects *)

(** The arguments of a formatting verb. *)
Inductive fmtarg :=
| FString (s : string)
| FInt (n : Z)
| FError (e : error).

(** What the program does to the outside, in order. *)
Inductive event :=
| Printf (format : string) (args : list fmtarg)      (* log.Printf *)
| Print (args : list fmtarg)                          (* the line log.Panic writes *)
| Open (name : string)                                (* os.Open *)
| Post (url contentType body : string).               (* http.Post *)

(** The ways the program can panic. *)
Inductive panic :=
| IndexOutOfRange (index length : Z)   (* runtime error: index out of range *)
| SliceBoundsOutOfRange                (* runtime error: slice bounds out of range *)
| LogPanic (e : error).                (* log.Panic(err) *)

Inductive result (A : Type) :=
| Done (a : A)
| Panicked (p : panic).
Arguments Done {A} a.
Arguments Panicked {A} p.

(** A computation: the events it emitted, and how it ended. Nothing in
    the program recovers from a panic. *)
Record IO (A : Type) := mkIO { trace : list event; outcome : result A }.
Arguments mkIO {A} trace outcome.
Arguments trace {A} _.
Arguments outcome {A} _.

Global Instance IO_ret : MRet IO := λ A a, mkIO [] (Done a).

Global Instance IO_bind : MBind IO := λ A B f m,
  match outcome m with
  | Done a => mkIO (trace m ++ trace (f a)) (outcome (f a))
  | Panicked p => mkIO (trace m) (Panicked p)
  end.

(** [m] after the events [tr] *)
Definition after {A} (tr : list event) (m : IO A) : IO A :=
  mkIO (tr ++ trace m) (outcome m).

Definition emit (e : event) : IO unit := mkIO [e] (Done tt).
Definition raise {A} (p : panic) : IO A := mkIO [] (Panicked p).

(** what the [http.Post] call and the read of the response body give *)
Record Response := { StatusCode : Z; Body : string; BodyErr : option error }.

(** The outside of one run: the directory, the files and the endpoint.
    The csv reader and the line scanner belong to the standard library;
    the world gives what they produce for the file under a name. *)
Record World := {
  ReadDir : string → list string * option error;          (* names in a directory *)
  OpenErr : string → option error;                        (* os.Open of a path *)
  ReadAll : string → list (list string) * option error;   (* csv.Reader.ReadAll *)
  Scan : string → list string * option error;             (* bufio.Scanner: lines, then Err() *)
  Respond : string → Response * option error              (* the endpoint, by request body *)
}.

Module log.
Definition Printf (format : string) (args : list fmtarg) : IO unit :=
  emit (Printf format args).
Definition Panic {A} (e : error) : IO A := emit (Print [FError e]);; raise (LogPanic e).
End log.

Module os.
Definition Open (w : World) (name : string) : IO (string * option error) :=
  emit (Open name);; mret (name, OpenErr w name).
End os.

Module http.
Definition Post (w : World) (url contentType body : string) : IO (Response * option error) :=
  emit (Post url contentType body);; mret (Respond w body).
End http.

(** ** The program *)

Definition API_URL : string :=
  "https://2swdepm0wa.execute-api.us-east-1.amazonaws.com/prod/NavaInterview/measures".

Definition CSV_NAME_INDEX : nat := 0.
Definition CSV_WIDTH_INDEX : nat := 1.
Definition CSV_DATA_TYPE_INDEX : nat := 2.

Definition DATA_TYPE_TEXT : string := "TEXT".
Definition DATA_TYPE_INTEGER : string := "INTEGER".
Definition DATA_TYPE_BOOLEAN : string := "BOOLEAN".

Record Field := { Name : string; Width : Z; Type_ : string }.

Global Instance Field_eq_dec : EqDecision Field.
Proof. solve_decision. Defined.

(** [record[i]] of a csv record; out of range it panics *)
Definition index (record : list string) (i : nat) : IO string :=
  match record !! i with
  | Some s => mret s
  | None => raise (IndexOutOfRange (Z.of_nat i) (Z.of_nat (length record)))
  end.

(** [s[lo:hi]] *)
Definition sliceIO (s : string) (lo hi : Z) : IO string :=
  match slice s lo hi with
  | Some r => mret r
  | None => raise SliceBoundsOutOfRange
  end.

(** What a loop body says: go on with the next element, or leave the
    function with its results. *)
Inductive flow (S R : Type) :=
| Next (s : S)
| Return (r : R).
Arguments Next {S R} s.
Arguments Return {S R} r.

(** [getSchemaFilenames]: the names of the files in the schemas directory *)
Definition getSchemaFilenames (w : World) : IO (list string * option error) :=
  let '(files, err) := ReadDir w "schemas" in
  match err with
  | Some e =>
      log.Printf "Got error attempting to list schema files: %+v" [FError e];;
      mret ([], Some e)
  | None => mret (files, None)
  end.

(** the zero value of [Field], which [make([]Field, n)] fills with *)
Definition zeroField : Field :=
  {| Name := EmptyString; Width := 0; Type_ := EmptyString |}.

(** the [for i, record := range records] loop of [getSchema] *)
Fixpoint getSchema_range (fileName : string) (i : nat) (records : list (list string))
    (fields : list Field) : IO (flow (list Field) (list Field * option error)) :=
  match records with
  | [] => mret (Next fields)
  | record :: records' =>
      (* Parse width as int *)
      widthCol ← index record CSV_WIDTH_INDEX;
      let '(width, err) := strconv.Atoi (strings.TrimSpace widthCol) in
      match err with
      | Some e =>
          col1 ← index record 1;
          log.Printf "Found invalid integer value for width in CSV file %s, record %d: '%s'"
            [FString fileName; FInt (Z.of_nat i + 1); FString col1];;
          mret (Return ([], Some e))
      | None =>
          (* Validate data type *)
          dataType ← index record CSV_DATA_TYPE_INDEX;
          if bool_decide (dataType ≠ DATA_TYPE_BOOLEAN)
             && bool_decide (dataType ≠ DATA_TYPE_INTEGER)
             && bool_decide (dataType ≠ DATA_TYPE_TEXT)
          then
            (* fmt.Sprintf with two %s of strings and one %d of an int *)
            let errMsg :=
              "Found invalid value for data type in CSV file " +:+ fileName +:+
              ", record " +:+ strconv.Itoa (Z.of_nat i + 1) +:+ ": '" +:+ dataType +:+ "'" in
            log.Printf errMsg [];;
            mret (Return ([], Some (errorString errMsg)))
          else
            name ← index record CSV_NAME_INDEX;
            let field := {| Name := name; Width := width; Type_ := dataType |} in
            getSchema_range fileName (S i) records' (<[i := field]> fields)
      end
  end.

(** [getSchema]: parse a CSV schema file and return its records as a
    list. (The deferred [Close] has no effect the program observes.) *)
Definition getSchema (w : World) (fileName : string) : IO (list Field * option error) :=
  '(csvFile, openErr) ← os.Open w ("schemas/" +:+ fileName);
  match openErr with
  | Some e =>
      log.Printf "Got error opening CSV file %s: %+v" [FString fileName; FError e];;
      mret ([], Some e)
  | None =>
      let '(records, parseErr) := ReadAll w csvFile in
      match parseErr with
      | Some e =>
          log.Printf "Got error parsing CSV file %s: %+v" [FString fileName; FError e];;
          mret ([], Some e)
      | None =>
          let fields := replicate (length records) zeroField in
          r ← getSchema_range fileName 0 records fields;
          match r with
          | Return r => mret r
          | Next fields => mret (fields, None)
          end
      end
  end.

(** [getData]: the lines of a data file *)
Definition getData (w : World) (fileName : string) : IO (list string * option error) :=
  '(dataFile, openErr) ← os.Open w ("data/" +:+ fileName);
  match openErr with
  | Some e =>
      log.Printf "Got error opening data file %s: %+v" [FString fileName; FError e];;
      mret ([], Some e)
  | None =>
      (* Read the file line-by-line *)
      let '(records, readErr) := Scan w dataFile in
      match readErr with
      | Some e =>
          log.Printf "Got error reading data file %s: %+v" [FString fileName; FError e];;
          mret (records, Some e)
      | None => mret (records, None)
      end
  end.

(** the [for _, field := range schema] loop of [getRecordJson] *)
Fixpoint getRecordJson_range (dataRecord : string) (schema : list Field)
    (startIndex : Z) (data : gmap string value)
    : IO (flow (gmap string value) (string * option error)) :=
  match schema with
  | [] => mret (Next data)
  | field :: schema' =>
      raw ← sliceIO dataRecord startIndex (wrap (startIndex + Width field));
      let fieldValue := strings.TrimSpace raw in
      (* Increment the index to the start of the next field in the record *)
      let next data := getRecordJson_range dataRecord schema' (wrap (startIndex + Width field)) data in
      if decide (Type_ field = DATA_TYPE_BOOLEAN) then
        let '(boolVal, boolErr) := strconv.ParseBool fieldValue in
        match boolErr with
        | Some e =>
            log.Printf "Found invalid boolean value: %s" [FString fieldValue];;
            mret (Return (EmptyString, Some e))
        | None => next (<[Name field := VBool boolVal]> data)
        end
      else if decide (Type_ field = DATA_TYPE_INTEGER) then
        let '(intVal, intErr) := strconv.Atoi fieldValue in
        match intErr with
        | Some e =>
            log.Printf "Found invalid integer value: %s" [FString fieldValue];;
            mret (Return (EmptyString, Some e))
        | None => next (<[Name field := VInt intVal]> data)
        end
      else if decide (Type_ field = DATA_TYPE_TEXT) then
        next (<[Name field := VString fieldValue]> data)
      else next data
  end.

(** [getRecordJson]: parse a record of the data file with the schema and
    convert it to JSON *)
Definition getRecordJson (dataRecord : string) (schema : list Field)
    : IO (string * option error) :=
  r ← getRecordJson_range dataRecord schema 0 ∅;
  match r with
  | Return r => mret r
  | Next data =>
      let '(jsonData, jsonErr) := json.Marshal data in
      match jsonErr with
      | Some e =>
          log.Printf "Got error attempting to marshal record data into JSON: %+v" [FError e];;
          mret (jsonData, Some e)
      | None => mret (jsonData, None)
      end
  end.

(** [postRecord]: send the JSON data to the API in a POST request *)
Definition postRecord (w : World) (jsonRecord : string) : IO unit :=
  log.Printf "POSTing JSON data to API: %s" [FString jsonRecord];;
  '(resp, postErr) ← http.Post w API_URL "application/json" jsonRecord;
  match postErr with
  | Some e => log.Printf "Received error response from API: %+v" [FError e]
  | None =>
      match BodyErr resp with
      | Some e => log.Printf "Got error parsing API response: %+v" [FError e]
      | None =>
          log.Printf "Received %d response from API: %s"
            [FInt (StatusCode resp); FString (Body resp)]
      end
  end.

(** the [for _, dataRecord := range dataRecords] loop of [main] *)
Fixpoint main_records (w : World) (schema : list Field) (dataRecords : list string)
    : IO unit :=
  match dataRecords with
  | [] => mret tt
  | dataRecord :: dataRecords' =>
      '(recordJson, jsonErr) ← getRecordJson dataRecord schema;
      match jsonErr with
      | Some _ =>
          log.Printf "Skipping data record '%s'" [FString dataRecord];;
          main_records w schema dataRecords'
      | None =>
          postRecord w recordJson;;
          main_records w schema dataRecords'
      end
  end.

(** the name of the data file, as [main] constructs it from the name of
    the schema file: [None] when [dotIndex] is -1 *)
Definition dataFileNameOf (fileName : string) : IO (option string) :=
  let dotIndex := LastIndex fileName "."%char in
  if decide (dotIndex = -1) then mret None
  else prefix ← sliceIO fileName 0 dotIndex; mret (Some (prefix +:+ ".txt")).

(** one turn of the [for _, fileName := range schemaFileNames] loop *)
Definition main_file (w : World) (fileName : string) : IO unit :=
  (* Get the schema information from the file *)
  '(schema, schemaErr) ← getSchema w fileName;
  match schemaErr with
  | Some _ => log.Printf "Skipping schema file %s" [FString fileName]
  | None =>
      (* Construct the data file name from the schema file name and load the records *)
      name ← dataFileNameOf fileName;
      match name with
      | None =>
          log.Printf "Found schema filename with no '.': %s. Skipping..." [FString fileName]
      | Some dataFileName =>
          '(dataRecords, dataErr) ← getData w dataFileName;
          match dataErr with
          | Some _ => log.Printf "Skipping data file %s" [FString fileName]
          | None => main_records w schema dataRecords
          end
      end
  end.

Fixpoint main_range (w : World) (schemaFileNames : list string) : IO unit :=
  match schemaFileNames with
  | [] => mret tt
  | fileName :: rest => main_file w fileName;; main_range w rest
  end.

Definition main (w : World) : IO unit :=
  (* Get the list of schema files *)
  '(schemaFileNames, err) ← getSchemaFilenames w;
  match err with
  | Some e => log.Panic e
  | None => main_range w schemaFileNames
  end.


(** ** The vocabulary of the specification *)

(** the total schema width: the sum of the field widths *)
Definition totalWidth (schema : list Field) : Z :=
  foldr (λ field n, Width field + n) 0 schema.

(** the offset of field [i]: the sum of the widths before it *)
Definition offsetOf (schema : list Field) (i : nat) : Z := totalWidth (take i schema).

(** The byte ranges of a line, one per field: the substrings
    [offset, offset + width) in schema order, from [offset] on. A range
    that is no substring of the line (it ends before it starts, or
    reaches beyond the line) gives no list. *)
Fixpoint fieldRanges (line : string) (schema : list Field) (offset : Z)
    : option (list string) :=
  match schema with
  | [] => Some []
  | field :: schema' =>
      raw ← slice line offset (offset + Width field);
      rest ← fieldRanges line schema' (offset + Width field);
      Some (raw :: rest)
  end.

(** the line made of the parts, one after the other *)
Definition concat (parts : list string) : string := foldr String.append EmptyString parts.

(** the typed value of a field whose trimmed text is [fieldValue] *)
Definition typedValue (field : Field) (fieldValue : string) : option value :=
  if decide (Type_ field = DATA_TYPE_BOOLEAN) then
    match strconv.ParseBool fieldValue with
    | (b, None) => Some (VBool b)
    | _ => None
    end
  else if decide (Type_ field = DATA_TYPE_INTEGER) then
    match strconv.Atoi fieldValue with
    | (n, None) => Some (VInt n)
    | _ => None
    end
  else if decide (Type_ field = DATA_TYPE_TEXT) then Some (VString fieldValue)
  else None.

(** the values the decoder stores *)
Definition scalar (v : value) : Prop :=
  match v with
  | VString _ | VInt _ | VBool _ => True
  | VNil | VFunc => False
  end.

(** the type names of a schema file *)
Definition vocabulary : list string :=
  [DATA_TYPE_TEXT; DATA_TYPE_INTEGER; DATA_TYPE_BOOLEAN].

(** The error kinds, by the values that carry them. *)
Definition InvalidWidth (e : error) : Prop := ∃ num kind, e = NumError "Atoi" num kind.
Definition InvalidType (e : error) : Prop := ∃ msg, e = errorString msg.
Definition InvalidInteger (e : error) : Prop := ∃ num kind, e = NumError "Atoi" num kind.
Definition InvalidBoolean (e : error) : Prop := ∃ str, e = NumError "ParseBool" str ErrSyntax.

(** column [i] of a row of a schema file *)
Definition col (record : list string) (i : nat) : string :=
  default EmptyString (record !! i).

Definition widthOf (record : list string) : Z * option error :=
  strconv.Atoi (strings.TrimSpace (col record CSV_WIDTH_INDEX)).

(** a row whose width column does not parse *)
Definition badWidth (record : list string) : Prop := (widthOf record).2 ≠ None.

(** a row whose type column is not of the vocabulary *)
Definition badType (record : list string) : Prop :=
  col record CSV_DATA_TYPE_INDEX ∉ vocabulary.

(** the field a row describes *)
Definition fieldOf (record : list string) : Field :=
  {| Name := col record CSV_NAME_INDEX;
     Width := (widthOf record).1;
     Type_ := col record CSV_DATA_TYPE_INDEX |}.

(** a world whose schemas directory holds the one file [s.csv] with the
    given rows, and whose data file [s.txt] has the given lines *)
Definition oneFile (records : list (list string)) (lines : list string) : World :=
  {| ReadDir := λ _, (["s.csv"], None);
     OpenErr := λ _, None;
     ReadAll := λ _, (records, None);
     Scan := λ _, (lines, None);
     Respond := λ _, ({| StatusCode := 200; Body := "ok"; BodyErr := None |}, None) |}.

(** the schema of the end-to-end examples *)
Definition idFlag : list Field :=
  [ {| Name := "id"; Width := 3; Type_ := DATA_TYPE_INTEGER |};
    {| Name := "flag"; Width := 1; Type_ := DATA_TYPE_BOOLEAN |} ].

Definition idFlagRows : list (list string) :=
  [ ["id"; "3"; "INTEGER"]; ["flag"; "1"; "BOOLEAN"] ].

(** a row that passes both checks of the loader *)
Definition validRow (record : list string) : Prop :=
  (3 <= length record)%nat ∧ ¬ badWidth record ∧ ¬ badType record.

Global Instance badWidth_dec record : Decision (badWidth record).
Proof. unfold badWidth. apply _. Defined.
Global Instance badType_dec record : Decision (badType record).
Proof. unfold badType. apply _. Defined.
Global Instance validRow_dec record : Decision (validRow record).
Proof. unfold validRow. apply _. Defined.

(** ** More vocabulary: what a run does *)

(** the bodies of the POST requests of a trace, in order *)
Definition posts (tr : list event) : list string :=
  omap (λ ev, match ev with Post _ _ body => Some body | _ => None end) tr.

(** an event that is a line of log *)
Definition isPrintf (ev : event) : Prop :=
  match ev with
  | Printf _ _ => True
  | _ => False
  end.

(** the JSON text of a line, where [getRecordJson] returns one with a nil
    error *)
Definition jsonOf (schema : list Field) (line : string) : option string :=
  match outcome (getRecordJson line schema) with
  | Done (jsonData, None) => Some jsonData
  | _ => None
  end.

(** a line on which [getRecordJson] returns (a text or an error) *)
Definition returns (schema : list Field) (line : string) : Prop :=
  ∃ r, outcome (getRecordJson line schema) = Done r.

(** the value of [startIndex] after the loop of [getRecordJson] went
    through the fields of [schema] *)
Definition endIndex (startIndex : Z) (schema : list Field) : Z :=
  foldl (λ index field, wrap (index + Width field)) startIndex schema.

(** the rows of a schema file *)
Definition rowsOf (w : World) (fileName : string) : list (list string) :=
  (ReadAll w ("schemas/" +:+ fileName)).1.

(** what the turn of the coordinator for [fileName] may do: log, open
    the schema file or the data file paired with it, and post to the API
    as JSON *)
Definition fileEvent (fileName : string) (ev : event) : Prop :=
  match ev with
  | Printf _ _ => True
  | Print _ => False
  | Open name =>
      name = "schemas/" +:+ fileName
      ∨ ∃ base ext, fileName = base +:+ String "." ext ∧ ("."%char ∉ bytes ext)
                    ∧ name = "data/" +:+ base +:+ ".txt"
  | Post url contentType _ => url = API_URL ∧ contentType = "application/json"
  end.

Global Instance fmtarg_eq_dec : EqDecision fmtarg.
Proof. solve_decision. Defined.
Global Instance event_eq_dec : EqDecision event.
Proof. solve_decision. Defined.

(** * Properties *)

(** ** The monad *)

Section IO_laws.
Context {A B : Type}.
Implicit Types (f g : A → IO B) (m : IO A).

Lemma bind_Done f tr a :
  mkIO tr (Done a) ≫= f = mkIO (tr ++ trace (f a)) (outcome (f a)).
Proof. reflexivity. Qed.

Lemma bind_Panicked f tr p : mkIO tr (Panicked p) ≫= f = mkIO tr (Panicked p).
Proof. reflexivity. Qed.

Lemma bind_mret f a : mret a ≫= f = f a.
Proof. unfold mret, IO_ret. rewrite bind_Done. by destruct (f a). Qed.

Lemma bind_raise f p : raise p ≫= f = raise p.
Proof. reflexivity. Qed.

Lemma bind_ext f g m : (∀ a, f a = g a) → m ≫= f = m ≫= g.
Proof.
  intros Hfg. destruct m as [tr [a|p]]; [|done].
  by rewrite !bind_Done, Hfg.
Qed.

Lemma bind_Printf (k : unit → IO B) format args :
  log.Printf format args ≫= k = after [Printf format args] (k tt).
Proof. reflexivity. Qed.

Lemma bind_Open (w : World) name (k : string * option error → IO B) :
  os.Open w name ≫= k = after [Open name] (k (name, OpenErr w name)).
Proof.
  unfold os.Open, emit, after, mbind, IO_bind, mret, IO_ret. cbn [trace outcome app].
  by destruct (k _) as [tr []].
Qed.

Lemma after_mkIO tr tr' (o : result B) : after tr (mkIO tr' o) = mkIO (tr ++ tr') o.
Proof. reflexivity. Qed.

Lemma bind_after m f tr : after tr m ≫= f = after tr (m ≫= f).
Proof.
  destruct m as [tr' [a|p]]; unfold after, mbind, IO_bind; cbn [trace outcome];
    by rewrite ?app_assoc.
Qed.

(** a bind that ends well went well on both sides *)
Lemma bind_Done_inv f m tr b :
  m ≫= f = mkIO tr (Done b) →
  ∃ tr1 a tr2, m = mkIO tr1 (Done a) ∧ f a = mkIO tr2 (Done b) ∧ tr = tr1 ++ tr2.
Proof.
  destruct m as [tr1 [a|p]]; [|done].
  rewrite bind_Done. destruct (f a) as [tr2 o] eqn:Hfa. simpl.
  intros [= <- ->]. by exists tr1, a, tr2.
Qed.
End IO_laws.

Lemma bind_emit {B} (k : unit → IO B) e : emit e ≫= k = after [e] (k tt).
Proof. reflexivity. Qed.

Lemma bind_Done_after {A B} (f : A → IO B) tr a : mkIO tr (Done a) ≫= f = after tr (f a).
Proof. reflexivity. Qed.

Lemma elem_of_trace_after {A} (m : IO A) tr ev :
  ev ∈ trace (after tr m) ↔ ev ∈ tr ∨ ev ∈ trace m.
Proof. unfold after. cbn [trace]. apply elem_of_app. Qed.

Lemma elem_of_trace_bind {A B} (m : IO A) (f : A → IO B) ev :
  ev ∈ trace (m ≫= f) → ev ∈ trace m ∨ ∃ a, ev ∈ trace (f a).
Proof.
  destruct m as [tr [a|p]]; unfold mbind, IO_bind; cbn [trace outcome].
  - rewrite elem_of_app. intros [?|?]; [by left|right; by exists a].
  - by left.
Qed.

(** the trace and the outcome of a computation that ends in a value *)
Ltac io_value := cbv [after mret IO_ret]; cbn [trace outcome app].

(** ** Byte strings and slices *)

Lemma bytes_of_bytes l : bytes (of_bytes l) = l.
Proof. apply list_ascii_of_string_of_list_ascii. Qed.

Lemma of_bytes_bytes s : of_bytes (bytes s) = s.
Proof. apply string_of_list_ascii_of_string. Qed.

Lemma length_bytes s : length (bytes s) = String.length s.
Proof. induction s; simpl; [done|]. by f_equal. Qed.

Lemma bytes_app s1 s2 : bytes (s1 +:+ s2) = bytes s1 ++ bytes s2.
Proof. induction s1; simpl; [done|]. by f_equal. Qed.

Lemma len_of_bytes l : len (of_bytes l) = Z.of_nat (length l).
Proof. unfold len. by rewrite <- length_bytes, bytes_of_bytes. Qed.

Lemma len_nonneg s : 0 <= len s.
Proof. unfold len. lia. Qed.

Lemma slice_Some s lo hi r :
  slice s lo hi = Some r → 0 <= lo ∧ lo <= hi ∧ hi <= len s.
Proof. unfold slice. by case_decide. Qed.

Lemma slice_in_range s lo hi :
  0 <= lo → lo <= hi → hi <= len s →
  slice s lo hi = Some (of_bytes (take (Z.to_nat (hi - lo)) (drop (Z.to_nat lo) (bytes s)))).
Proof. intros. unfold slice. by rewrite decide_True. Qed.

(** A slice below [n] reads only the first [n] bytes. *)
Lemma slice_prefix s1 s2 n lo hi :
  hi <= n → n <= len s1 → n <= len s2 →
  take (Z.to_nat n) (bytes s1) = take (Z.to_nat n) (bytes s2) →
  slice s1 lo hi = slice s2 lo hi.
Proof.
  intros Hhi H1 H2 Heq. unfold slice.
  destruct (decide (0 <= lo ∧ lo <= hi)) as [[Hlo Hlh]|Hno].
  - rewrite !decide_True by lia. do 2 f_equal.
    assert (Hcut : ∀ l : list ascii,
      take (Z.to_nat (hi - lo)) (drop (Z.to_nat lo) l)
      = take (Z.to_nat (hi - lo)) (drop (Z.to_nat lo) (take (Z.to_nat n) l))).
    { intros l. rewrite skipn_firstn_comm, take_take. f_equal. lia. }
    by rewrite (Hcut (bytes s1)), (Hcut (bytes s2)), Heq.
  - rewrite !decide_False; [done|lia..].
Qed.

Lemma wrap_id z : is_int z → wrap z = z.
Proof.
  unfold is_int, wrap, min_int, max_int. intros.
  rewrite Z.mod_small; lia.
Qed.

Lemma wrap_is_int z : is_int (wrap z).
Proof.
  unfold is_int, wrap, min_int, max_int.
  pose proof (Z.mod_pos_bound (z + 2 ^ 63) (2 ^ 64)). lia.
Qed.

(** A slice that starts at an int offset and is in range did not wrap,
    and its width is not negative. *)
Lemma wrap_slice startIndex width :
  is_int width → 0 <= startIndex <= max_int →
  startIndex <= wrap (startIndex + width) →
  wrap (startIndex + width) = startIndex + width ∧ 0 <= width.
Proof.
  unfold is_int, min_int, max_int. intros Hw Hs Hle.
  destruct (decide (startIndex + width <= 2 ^ 63 - 1)) as [Hsmall|Hbig].
  - rewrite wrap_id in Hle |- * by (unfold is_int, min_int, max_int; lia). lia.
  - exfalso. revert Hle. unfold wrap.
    replace (startIndex + width + 2 ^ 63)
      with (startIndex + width + 2 ^ 63 - 2 ^ 64 + 1 * 2 ^ 64) by lia.
    rewrite Z_mod_plus_full, Z.mod_small by lia. lia.
Qed.

Lemma LastIndex_go_absent l c i found :
  c ∉ l → LastIndex_go l c i found = found.
Proof.
  revert i found. induction l as [|b l IH]; intros i found Hno; [done|].
  apply not_elem_of_cons in Hno as [Hne Hno]. simpl.
  rewrite decide_False by congruence. by apply IH.
Qed.

Lemma LastIndex_go_last l1 l2 c i found :
  c ∉ l2 → LastIndex_go (l1 ++ c :: l2) c i found = i + Z.of_nat (length l1).
Proof.
  revert i found. induction l1 as [|b l1 IH]; intros i found Hno; simpl.
  - rewrite decide_True by done. rewrite LastIndex_go_absent by done. lia.
  - rewrite IH by done. lia.
Qed.

(** no dot: -1 *)
Lemma LastIndex_absent s c : c ∉ bytes s → LastIndex s c = -1.
Proof. intros. unfold LastIndex. by apply LastIndex_go_absent. Qed.

(** the index of the last dot is the length of what comes before it *)
Lemma LastIndex_last base ext c :
  c ∉ bytes ext → LastIndex (base +:+ String c ext) c = len base.
Proof.
  intros Hno. unfold LastIndex. rewrite bytes_app. simpl.
  rewrite LastIndex_go_last by done. unfold len. rewrite length_bytes. lia.
Qed.

Lemma slice_base base rest : slice (base +:+ rest) 0 (len base) = Some base.
Proof.
  pose proof (len_nonneg base). pose proof (len_nonneg rest).
  assert (Hlen : len (base +:+ rest) = len base + len rest).
  { unfold len. rewrite <- !length_bytes, bytes_app, length_app. lia. }
  rewrite slice_in_range by lia. f_equal.
  rewrite drop_0, bytes_app, Z.sub_0_r. unfold len.
  rewrite Nat2Z.id, <- length_bytes, take_app_length. apply of_bytes_bytes.
Qed.

(** ** strconv.Atoi *)

Lemma digits_nonneg l n : 0 <= n → 0 <= (strconv.digits l n).1.
Proof.
  revert n. induction l as [|c l IH]; intros n Hn; simpl; [done|].
  repeat case_match; simpl; try done; try (unfold strconv.maxUint64; lia).
  apply IH. apply orb_false_iff in H as [? _]. lia.
Qed.

(** What Atoi returns with a nil error is a Go int. *)
Lemma Atoi_is_int s n : strconv.Atoi s = (n, None) → is_int n.
Proof.
  unfold strconv.Atoi.
  assert (Hd : ∀ l un o, strconv.digits l 0 = (un, o) → 0 <= un).
  { intros l un o Hl. pose proof (digits_nonneg l 0 ltac:(done)) as Hp.
    by rewrite Hl in Hp. }
  repeat case_match; intros; simplify_eq;
    repeat match goal with
      | H : strconv.digits _ 0 = _ |- _ => apply Hd in H
      | H : _ && _ = false |- _ => apply andb_false_iff in H as [H|H]
      | H : negb _ = false |- _ => apply negb_false_iff in H
      | H : negb _ = true |- _ => apply negb_true_iff in H
      | H : _ && _ = true |- _ => apply andb_true_iff in H as [? ?]
      end;
    unfold is_int, min_int, max_int; try congruence; lia.
Qed.

(** What Atoi returns as error is a NumError of Atoi about its argument. *)
Lemma Atoi_error s n e : strconv.Atoi s = (n, Some e) → ∃ kind, e = NumError "Atoi" s kind.
Proof.
  unfold strconv.Atoi. repeat case_match; intros; simplify_eq; by eexists.
Qed.

Lemma ParseBool_error str b e :
  strconv.ParseBool str = (b, Some e) → e = NumError "ParseBool" str ErrSyntax.
Proof. unfold strconv.ParseBool. repeat case_match; intros; by simplify_eq. Qed.

(** ** The schema loader *)

Lemma index_lookup (record : list string) i :
  (i < length record)%nat → index record i = mret (col record i).
Proof.
  intros Hi. unfold index, col.
  destruct (record !! i) eqn:Hl; [done|].
  apply lookup_ge_None in Hl. lia.
Qed.

Lemma index_None (record : list string) i :
  record !! i = None →
  index record i = raise (IndexOutOfRange (Z.of_nat i) (Z.of_nat (length record))).
Proof. intros Hl. unfold index. by rewrite Hl. Qed.

Lemma type_check_false dataType :
  dataType ∈ vocabulary →
  bool_decide (dataType ≠ DATA_TYPE_BOOLEAN) && bool_decide (dataType ≠ DATA_TYPE_INTEGER)
  && bool_decide (dataType ≠ DATA_TYPE_TEXT) = false.
Proof.
  unfold vocabulary. rewrite !elem_of_cons, elem_of_nil.
  intros [->|[->|[->|[]]]]; reflexivity.
Qed.

Lemma type_check_true dataType :
  dataType ∉ vocabulary →
  bool_decide (dataType ≠ DATA_TYPE_BOOLEAN) && bool_decide (dataType ≠ DATA_TYPE_INTEGER)
  && bool_decide (dataType ≠ DATA_TYPE_TEXT) = true.
Proof.
  unfold vocabulary. rewrite !elem_of_cons, elem_of_nil. intros Hno.
  rewrite !andb_true_iff, !bool_decide_eq_true. naive_solver.
Qed.

Section getSchema_range.
Variables (fileName : string) (i : nat) (record : list string)
  (records : list (list string)) (fields : list Field).

(** a row that passes: its field is stored at [i] and the loop goes on *)
Lemma getSchema_range_valid :
  validRow record →
  getSchema_range fileName i (record :: records) fields
  = getSchema_range fileName (S i) records (<[i := fieldOf record]> fields).
Proof.
  intros (Hlen & Hw & Ht). cbn [getSchema_range].
  unfold CSV_WIDTH_INDEX, CSV_DATA_TYPE_INDEX, CSV_NAME_INDEX.
  rewrite !index_lookup by lia. rewrite bind_mret.
  unfold badWidth, widthOf in Hw.
  destruct (strconv.Atoi _) as [width [e|]] eqn:Hwidth; [by destruct Hw|].
  rewrite bind_mret, type_check_false by (unfold badType in Ht; by apply dec_stable).
  rewrite bind_mret. unfold fieldOf, widthOf. by rewrite Hwidth.
Qed.

(** a row whose width does not parse: the error of Atoi, and no list *)
Lemma getSchema_range_badWidth :
  (2 <= length record)%nat → badWidth record →
  ∃ tr e, getSchema_range fileName i (record :: records) fields
          = mkIO tr (Done (Return ([], Some e)))
          ∧ (widthOf record).2 = Some e.
Proof.
  intros Hlen Hw. cbn [getSchema_range].
  unfold CSV_WIDTH_INDEX. rewrite !index_lookup by lia. rewrite bind_mret.
  unfold badWidth, widthOf in *.
  destruct (strconv.Atoi _) as [width [e|]] eqn:Hwidth; [|done].
  rewrite bind_mret. by eexists _, e.
Qed.

(** a row whose width parses and whose type is unknown *)
Lemma getSchema_range_badType :
  (3 <= length record)%nat → ¬ badWidth record → badType record →
  ∃ tr msg, getSchema_range fileName i (record :: records) fields
            = mkIO tr (Done (Return ([], Some (errorString msg)))).
Proof.
  intros Hlen Hw Ht. cbn [getSchema_range].
  unfold CSV_WIDTH_INDEX, CSV_DATA_TYPE_INDEX, CSV_NAME_INDEX.
  rewrite !index_lookup by lia. rewrite bind_mret.
  unfold badWidth, widthOf in Hw.
  destruct (strconv.Atoi _) as [width [e|]] eqn:Hwidth; [by destruct Hw|].
  rewrite bind_mret, type_check_true by done.
  by eexists _, _.
Qed.

(** the loop goes on only after a row that passes *)
Lemma getSchema_range_Next tr fields' :
  getSchema_range fileName i (record :: records) fields = mkIO tr (Done (Next fields')) →
  validRow record.
Proof.
  destruct (decide (validRow record)) as [|Hno]; [done|].
  intros Hrun. exfalso. revert Hrun. cbn [getSchema_range].
  unfold CSV_WIDTH_INDEX, CSV_DATA_TYPE_INDEX, CSV_NAME_INDEX.
  destruct (record !! 1%nat) as [widthCol|] eqn:Hc1;
    [|by rewrite (index_None _ _ Hc1), bind_raise].
  assert (Hl1 : (1 < length record)%nat) by (by eapply lookup_lt_Some).
  rewrite !(index_lookup _ 1), bind_mret by lia.
  destruct (strconv.Atoi _) as [width [e|]] eqn:Hwidth.
  { by rewrite bind_mret. }
  destruct (record !! 2%nat) as [dataType|] eqn:Hc2;
    [|by rewrite (index_None _ _ Hc2), bind_raise].
  assert (Hl2 : (2 < length record)%nat) by (by eapply lookup_lt_Some).
  rewrite !(index_lookup _ 2), bind_mret by lia.
  destruct (decide (col record 2 ∈ vocabulary)) as [Hin|Hout].
  - destruct Hno. split; [lia|]. unfold badWidth, badType, widthOf.
    unfold CSV_WIDTH_INDEX, CSV_DATA_TYPE_INDEX. rewrite Hwidth. simpl.
    split; [by intros []|by intros []].
  - by rewrite type_check_true.
Qed.

(** a row that does not pass, if it ends the loop without a panic, ends
    it with an error and no list *)
Lemma getSchema_range_Return tr r :
  ¬ validRow record →
  getSchema_range fileName i (record :: records) fields = mkIO tr (Done (Return r)) →
  ∃ e, r = ([], Some e).
Proof.
  intros Hno. cbn [getSchema_range].
  unfold CSV_WIDTH_INDEX, CSV_DATA_TYPE_INDEX, CSV_NAME_INDEX.
  destruct (record !! 1%nat) as [widthCol|] eqn:Hc1;
    [|by rewrite (index_None _ _ Hc1), bind_raise].
  assert (Hl1 : (1 < length record)%nat) by (by eapply lookup_lt_Some).
  rewrite !(index_lookup _ 1), bind_mret by lia.
  destruct (strconv.Atoi _) as [width [e|]] eqn:Hwidth.
  { rewrite bind_mret, bind_Printf. io_value.
    intros [= <- <-]. by eexists. }
  destruct (record !! 2%nat) as [dataType|] eqn:Hc2;
    [|by rewrite (index_None _ _ Hc2), bind_raise].
  assert (Hl2 : (2 < length record)%nat) by (by eapply lookup_lt_Some).
  rewrite !(index_lookup _ 2), bind_mret by lia.
  destruct (decide (col record 2 ∈ vocabulary)) as [Hin|Hout].
  - destruct Hno. split; [lia|]. unfold badWidth, badType, widthOf.
    unfold CSV_WIDTH_INDEX, CSV_DATA_TYPE_INDEX. rewrite Hwidth. simpl.
    split; [by intros []|by intros []].
  - rewrite type_check_true, bind_Printf by done.
    io_value.
    intros [= <- <-]. by eexists.
Qed.
End getSchema_range.

(** After the rows that pass, the list holds their fields in row order. *)
Lemma getSchema_range_app fileName good rest :
  ∀ i done k,
  length done = i →
  Forall validRow good →
  getSchema_range fileName i (good ++ rest) (done ++ replicate (length good + k) zeroField)
  = getSchema_range fileName (i + length good) rest
      ((done ++ (fieldOf <$> good)) ++ replicate k zeroField).
Proof.
  induction good as [|record good IH]; intros i done k Hi Hgood.
  { simpl. by rewrite Nat.add_0_r, app_nil_r. }
  apply Forall_cons in Hgood as [Hrow Hgood].
  rewrite <- app_comm_cons, getSchema_range_valid by done.
  cbn [length Nat.add replicate].
  rewrite insert_app_r_alt, Hi, Nat.sub_diag by lia. cbn [insert list_insert].
  rewrite (cons_middle _ done), app_assoc.
  rewrite IH by (done || rewrite length_app; simpl; lia).
  rewrite fmap_cons, <- !app_assoc. simpl. f_equal. lia.
Qed.

Lemma getSchema_range_good fileName good rest :
  Forall validRow good →
  getSchema_range fileName 0 (good ++ rest) (replicate (length (good ++ rest)) zeroField)
  = getSchema_range fileName (length good) rest
      ((fieldOf <$> good) ++ replicate (length rest) zeroField).
Proof.
  intros Hgood. rewrite length_app.
  apply (getSchema_range_app fileName good rest 0 [] (length rest) eq_refl Hgood).
Qed.

Lemma getSchema_range_all_valid fileName records :
  Forall validRow records →
  getSchema_range fileName 0 records (replicate (length records) zeroField)
  = mret (Next (fieldOf <$> records)).
Proof.
  intros Hall.
  pose proof (getSchema_range_app fileName records [] 0 [] 0 eq_refl Hall) as Happ.
  by rewrite !app_nil_r, Nat.add_0_r, app_nil_l in Happ.
Qed.

(** If the loop runs to its end, every row passed. *)
Lemma getSchema_range_Next_all fileName records :
  ∀ i fields tr fields',
  getSchema_range fileName i records fields = mkIO tr (Done (Next fields')) →
  Forall validRow records.
Proof.
  induction records as [|record records IH]; intros i fields tr fields' Hrun.
  { constructor. }
  pose proof (getSchema_range_Next _ _ _ _ _ _ _ Hrun) as Hrow.
  rewrite getSchema_range_valid in Hrun by done.
  apply Forall_cons. split; [done|]. by eapply IH.
Qed.

(** the first row that does not pass *)
Lemma first_offender (records : list (list string)) :
  Exists (λ record, ¬ validRow record) records →
  ∃ good record rest,
    records = good ++ record :: rest ∧ Forall validRow good ∧ ¬ validRow record.
Proof.
  induction records as [|r records IH]; intros Hex.
  { by apply Exists_nil in Hex. }
  destruct (decide (validRow r)) as [Hr|Hr].
  - apply Exists_cons in Hex as [Hex|Hex]; [done|].
    destruct (IH Hex) as (good & record & rest & -> & Hgood & Hbad).
    exists (r :: good), record, rest. split; [done|]. split; [|done].
    by apply Forall_cons.
  - exists [], r, records. split; [done|]. split; [constructor|done].
Qed.

Section getSchema.
Variables (w : World) (fileName : string) (records : list (list string)).
Hypothesis Hopen : OpenErr w ("schemas/" +:+ fileName) = None.
Hypothesis Hread : ReadAll w ("schemas/" +:+ fileName) = (records, None).

Lemma getSchema_unfold :
  getSchema w fileName
  = after [Open ("schemas/" +:+ fileName)]
      (getSchema_range fileName 0 records (replicate (length records) zeroField) ≫= λ r,
       match r with
       | Return r => mret r
       | Next fields => mret (fields, None)
       end).
Proof using All. unfold getSchema. by rewrite bind_Open, Hopen, Hread. Qed.

Lemma getSchema_all_valid :
  Forall validRow records →
  getSchema w fileName
  = mkIO [Open ("schemas/" +:+ fileName)] (Done (fieldOf <$> records, None)).
Proof using All.
  intros Hall. by rewrite getSchema_unfold, getSchema_range_all_valid, bind_mret.
Qed.

(** the loop stopped at the first row that does not pass *)
Lemma getSchema_stops_at good record rest tr r :
  records = good ++ record :: rest →
  Forall validRow good →
  getSchema_range fileName (length good) (record :: rest)
    ((fieldOf <$> good) ++ replicate (length (record :: rest)) zeroField)
  = mkIO tr (Done (Return r)) →
  getSchema w fileName = mkIO (Open ("schemas/" +:+ fileName) :: tr) (Done r).
Proof using All.
  intros Heq Hgood Hrun. rewrite getSchema_unfold, Heq.
  rewrite getSchema_range_good, Hrun, bind_Done, after_mkIO by done.
  cbn [trace outcome mret IO_ret]. by rewrite app_nil_r.
Qed.

Lemma getSchema_success tr schema :
  getSchema w fileName = mkIO tr (Done (schema, None)) →
  Forall validRow records ∧ schema = fieldOf <$> records.
Proof using All.
  intros Hrun.
  destruct (decide (Forall validRow records)) as [Hall|Hno].
  { split; [done|]. rewrite getSchema_all_valid in Hrun by done. by injection Hrun. }
  exfalso. apply not_Forall_Exists in Hno; [|apply _].
  destruct (first_offender records Hno) as (good & record & rest & Heq & Hgood & Hbad).
  rewrite getSchema_unfold, Heq, getSchema_range_good in Hrun by done.
  destruct (getSchema_range fileName (length good) (record :: rest) _)
    as [tr' [[fields'|[fields' err]]|p]] eqn:Hstep.
  - apply getSchema_range_Next in Hstep. by destruct Hbad.
  - (* left with its results: the error is not nil *)
    apply getSchema_range_Return in Hstep as [e He]; [|done].
    rewrite bind_Done, after_mkIO in Hrun. by injection Hrun as _ -> ->.
  - done.
Qed.
End getSchema.

(** C5 (as amended). For a schema file that opens and parses to rows of
    at least three columns, [getSchema] checks the rows in order and the
    first offending row decides: InvalidWidth if its trimmed width column
    is not a parseable integer, otherwise InvalidType if its type column
    is not exactly one of TEXT, INTEGER, BOOLEAN. Any offending row
    yields an error and no field list; with no offending row the result
    is the field list in row order. *)
Theorem load_first_offender (w : World) (fileName : string) (records : list (list string)) :
  OpenErr w ("schemas/" +:+ fileName) = None →
  ReadAll w ("schemas/" +:+ fileName) = (records, None) →
  Forall (λ record, (3 <= length record)%nat) records →
  (Forall (λ record, ¬ badWidth record ∧ ¬ badType record) records →
     getSchema w fileName
     = mkIO [Open ("schemas/" +:+ fileName)] (Done (fieldOf <$> records, None)))
  ∧ (∀ good record rest,
       records = good ++ record :: rest →
       Forall (λ record, ¬ badWidth record ∧ ¬ badType record) good →
       (badWidth record →
          ∃ tr e, getSchema w fileName = mkIO tr (Done ([], Some e))
                  ∧ InvalidWidth e ∧ (widthOf record).2 = Some e)
       ∧ (¬ badWidth record → badType record →
          ∃ tr e, getSchema w fileName = mkIO tr (Done ([], Some e)) ∧ InvalidType e))
  ∧ (Exists (λ record, badWidth record ∨ badType record) records →
       ∃ tr e, getSchema w fileName = mkIO tr (Done ([], Some e))
               ∧ (InvalidWidth e ∨ InvalidType e)).
Proof.
  intros Hopen Hread Hcols.
  assert (Hvalid : ∀ l, Forall (λ record, (3 <= length record)%nat) l →
            Forall (λ record, ¬ badWidth record ∧ ¬ badType record) l → Forall validRow l).
  { intros l H3 Hok. rewrite Forall_forall in *. intros r Hr. split; auto. }
  assert (Hfirst : ∀ good record rest,
       records = good ++ record :: rest →
       Forall (λ record, ¬ badWidth record ∧ ¬ badType record) good →
       (badWidth record →
          ∃ tr e, getSchema w fileName = mkIO tr (Done ([], Some e))
                  ∧ InvalidWidth e ∧ (widthOf record).2 = Some e)
       ∧ (¬ badWidth record → badType record →
          ∃ tr e, getSchema w fileName = mkIO tr (Done ([], Some e)) ∧ InvalidType e)).
  { intros good record rest Heq Hgood.
    assert (Hcols' := Hcols). rewrite Heq in Hcols'.
    apply Forall_app in Hcols' as [Hc1 Hc2]. apply Forall_cons in Hc2 as [Hc2 _].
    specialize (Hvalid _ Hc1 Hgood). split.
    - intros Hbad.
      destruct (getSchema_range_badWidth fileName (length good) record rest
                  ((fieldOf <$> good) ++ replicate (length (record :: rest)) zeroField))
        as (tr & e & Hrun & He); [lia|done|].
      exists (Open ("schemas/" +:+ fileName) :: tr), e. split; [|split; [|done]].
      + by eapply getSchema_stops_at.
      + unfold widthOf in He. destruct (strconv.Atoi _) as [n o] eqn:Hn.
        simpl in He. subst o. apply Atoi_error in Hn as [kind ->]. by eexists _, _.
    - intros Hw Hbad.
      destruct (getSchema_range_badType fileName (length good) record rest
                  ((fieldOf <$> good) ++ replicate (length (record :: rest)) zeroField))
        as (tr & msg & Hrun); [lia|done..|].
      exists (Open ("schemas/" +:+ fileName) :: tr), (errorString msg).
      split; [by eapply getSchema_stops_at|by eexists]. }
  split; [|split; [done|]].
  - intros Hok. by apply getSchema_all_valid, Hvalid.
  - intros Hex.
    assert (Hex' : Exists (λ record, ¬ validRow record) records).
    { eapply Exists_impl; [exact Hex|]. intros r [Hr|Hr] (_ & ? & ?); done. }
    destruct (first_offender _ Hex') as (good & record & rest & Heq & Hgood & Hbad).
    assert (Hgood' : Forall (λ record, ¬ badWidth record ∧ ¬ badType record) good).
    { eapply Forall_impl; [exact Hgood|]. by intros r (_ & ? & ?). }
    destruct (Hfirst good record rest Heq Hgood') as [Hw Ht].
    destruct (decide (badWidth record)) as [Hbw|Hbw].
    + destruct (Hw Hbw) as (tr & e & ? & ? & _). exists tr, e. auto.
    + destruct (decide (badType record)) as [Hbt|Hbt].
      * destruct (Ht Hbw Hbt) as (tr & e & ? & ?). exists tr, e. auto.
      * destruct Hbad. split; [|done].
        rewrite Heq in Hcols. apply Forall_app in Hcols as [_ Hc2].
        by apply Forall_cons in Hc2 as [Hc2 _].
Qed.

(** the theorem at the two rows of the example, which both pass *)
Lemma load_first_offender_witness :
  getSchema (oneFile idFlagRows []) "s.csv" = mkIO [Open "schemas/s.csv"] (Done (idFlag, None)).
Proof.
  destruct (load_first_offender (oneFile idFlagRows []) "s.csv" idFlagRows)
    as (Hall & _ & _); [reflexivity | reflexivity | | ].
  - compute_done.
  - apply Hall. compute_done.
Defined.

(** C5, as stated, fails in both of its error clauses. With the rows
    [a,1,FLOAT] and [b,x,TEXT] a row has a width that does not parse, and
    the load fails with InvalidType, the error of the earlier row. With
    the single row [a,x,FLOAT] the type column is not of the vocabulary,
    and the load fails with InvalidWidth, the check that comes first. *)
Lemma load_first_offender_counterexample :
  let rows1 := [ ["a"; "1"; "FLOAT"]; ["b"; "x"; "TEXT"] ] in
  let rows2 := [ ["a"; "x"; "FLOAT"] ] in
  (Exists badWidth rows1
   ∧ ∃ tr e, getSchema (oneFile rows1 []) "s.csv" = mkIO tr (Done ([], Some e))
             ∧ InvalidType e ∧ ¬ InvalidWidth e)
  ∧ (Exists badType rows2
     ∧ ∃ tr e, getSchema (oneFile rows2 []) "s.csv" = mkIO tr (Done ([], Some e))
               ∧ InvalidWidth e ∧ ¬ InvalidType e).
Proof.
  split; (split; [compute_done| eexists _, _; split; [vm_compute; reflexivity|]; split]).
  - by eexists.
  - intros (? & ? & [=]).
  - by eexists _, _.
  - intros (? & [=]).
Qed.

(** a load that succeeded opened the file and read its rows *)
Lemma getSchema_Done_inv w fileName tr schema :
  getSchema w fileName = mkIO tr (Done (schema, None)) →
  OpenErr w ("schemas/" +:+ fileName) = None
  ∧ (ReadAll w ("schemas/" +:+ fileName)).2 = None.
Proof.
  unfold getSchema. rewrite bind_Open.
  destruct (OpenErr w _) as [e|]; [by rewrite bind_Printf|].
  destruct (ReadAll w _) as [records [e|]]; [by rewrite bind_Printf|done].
Qed.

(** C6 (as amended). Every field of a schema that [getSchema] returned
    with a nil error has as width the integer that the trimmed width
    column of its row parses to, a value of the int range. *)
Theorem loaded_widths (w : World) (fileName : string) (tr : list event)
    (schema : list Field) :
  getSchema w fileName = mkIO tr (Done (schema, None)) →
  Forall2 (λ record field, widthOf record = (Width field, None))
    (ReadAll w ("schemas/" +:+ fileName)).1 schema
  ∧ Forall (λ field, is_int (Width field)) schema.
Proof.
  intros Hrun. destruct (getSchema_Done_inv _ _ _ _ Hrun) as [Hopen Hread].
  destruct (ReadAll w _) as [records o] eqn:Hrecords. simpl in Hread. subst o.
  destruct (getSchema_success w fileName records Hopen Hrecords tr schema Hrun)
    as [Hall ->].
  assert (Hrows : Forall2 (λ record field, widthOf record = (Width field, None))
                    records (fieldOf <$> records)).
  { apply Forall2_fmap_r, Forall_Forall2_diag.
    eapply Forall_impl; [exact Hall|]. intros record (_ & Hw & _).
    unfold badWidth in Hw. simpl. destruct (widthOf record) as [n [e|]]; [by destruct Hw|done]. }
  split; [done|].
  apply Forall_fmap. eapply Forall_impl; [exact Hall|]. intros record (_ & Hw & _).
  unfold badWidth in Hw. simpl. destruct (widthOf record) as [n [e|]] eqn:Hn; [by destruct Hw|].
  by apply Atoi_is_int in Hn.
Qed.

(** the theorem at the two rows of the example *)
Lemma loaded_widths_witness :
  Forall2 (λ record field, widthOf record = (Width field, None)) idFlagRows idFlag
  ∧ Forall (λ field, is_int (Width field)) idFlag.
Proof.
  apply (loaded_widths (oneFile idFlagRows []) "s.csv" [Open "schemas/s.csv"] idFlag).
  reflexivity.
Defined.

(** C6, as stated, fails: the rows [a,0,TEXT] and [b,-3,TEXT] load, and
    the schema has the widths 0 and -3. *)
Lemma loaded_widths_counterexample :
  let rows := [ ["a"; "0"; "TEXT"]; ["b"; "-3"; "TEXT"] ] in
  let schema := [ {| Name := "a"; Width := 0; Type_ := "TEXT" |};
                  {| Name := "b"; Width := -3; Type_ := "TEXT" |} ] in
  getSchema (oneFile rows []) "s.csv" = mkIO [Open "schemas/s.csv"] (Done (schema, None))
  ∧ ¬ Forall (λ field, 0 < Width field) schema.
Proof.
  split; [reflexivity|]. intros Hpos. apply Forall_cons in Hpos as [Hpos _].
  simpl in Hpos. lia.
Qed.

(** ** The decoder: the end-to-end example *)

(** C4. The line [042T] under the schema {id: 3, INTEGER; flag: 1,
    BOOLEAN}: the first three bytes trim and parse to the integer 42, the
    fourth byte [T] parses to the boolean true, the record is
    {id: 42, flag: true}, and the call returns its JSON text with a nil
    error, having logged nothing. *)
Theorem decode_042T :
  slice "042T" 0 3 = Some "042"
  ∧ strconv.Atoi (strings.TrimSpace "042") = (42, None)
  ∧ slice "042T" 3 4 = Some "T"
  ∧ strconv.ParseBool (strings.TrimSpace "T") = (true, None)
  ∧ getRecordJson_range "042T" idFlag 0 ∅
    = mkIO [] (Done (Next (<["flag" := VBool true]> (<["id" := VInt 42]> ∅))))
  ∧ getRecordJson "042T" idFlag
    = mkIO [] (Done ("{" +:+ json.quote "flag" +:+ ":true," +:+ json.quote "id" +:+ ":42}", None)).
Proof. vm_compute. repeat split. Qed.

(** ** The decoder reads the first total-width bytes only *)

Lemma totalWidth_nonneg schema :
  Forall (λ field, 0 <= Width field) schema → 0 <= totalWidth schema.
Proof. induction 1; simpl; lia. Qed.

Section prefix.
Variables (line1 line2 : string) (n : Z).
Hypothesis Hn : n <= max_int.
Hypothesis Hlen1 : n <= len line1.
Hypothesis Hlen2 : n <= len line2.
Hypothesis Hagree : slice line1 0 n = slice line2 0 n.

Lemma agree_take : take (Z.to_nat n) (bytes line1) = take (Z.to_nat n) (bytes line2).
Proof using Hlen1 Hlen2 Hagree.
  destruct (decide (0 <= n)) as [H0|H0].
  - rewrite !slice_in_range in Hagree by lia.
    injection Hagree as Heq. apply (f_equal bytes) in Heq.
    by rewrite !bytes_of_bytes, Z.sub_0_r in Heq.
  - by replace (Z.to_nat n) with 0%nat by lia.
Qed.

Lemma getRecordJson_range_prefix schema startIndex data :
  Forall (λ field, 0 <= Width field) schema →
  0 <= startIndex →
  startIndex + totalWidth schema <= n →
  getRecordJson_range line1 schema startIndex data
  = getRecordJson_range line2 schema startIndex data.
Proof using All.
  intros Hw. revert startIndex data.
  induction Hw as [|field schema Hf Hw IH]; intros startIndex data H0 Hsum; [done|].
  simpl in Hsum. pose proof (totalWidth_nonneg _ Hw).
  cbn [getRecordJson_range].
  rewrite wrap_id by (unfold is_int, min_int, max_int in *; lia).
  unfold sliceIO.
  rewrite (slice_prefix line1 line2 n) by (auto using agree_take || lia).
  apply bind_ext; intros raw.
  assert (Hnext : ∀ d, getRecordJson_range line1 schema (startIndex + Width field) d
                     = getRecordJson_range line2 schema (startIndex + Width field) d).
  { intros d. apply IH; lia. }
  repeat case_decide; repeat case_match; auto.
Qed.

Lemma getRecordJson_prefix schema :
  Forall (λ field, 0 <= Width field) schema →
  totalWidth schema <= n →
  getRecordJson line1 schema = getRecordJson line2 schema.
Proof using All.
  intros. unfold getRecordJson.
  by rewrite getRecordJson_range_prefix by (done || lia).
Qed.
End prefix.

(** On a line long enough for the schema no slice is out of range. *)
Lemma getRecordJson_range_no_panic line schema startIndex data :
  Forall (λ field, 0 <= Width field) schema →
  go_string line →
  0 <= startIndex →
  startIndex + totalWidth schema <= len line →
  ∃ r, outcome (getRecordJson_range line schema startIndex data) = Done r.
Proof.
  intros Hw Hgo. revert startIndex data.
  induction Hw as [|field schema Hf Hw IH]; intros startIndex data H0 Hsum.
  { by eexists. }
  simpl in Hsum. pose proof (totalWidth_nonneg _ Hw).
  cbn [getRecordJson_range].
  rewrite wrap_id by (unfold go_string, is_int, min_int, max_int in *; lia).
  unfold sliceIO. rewrite slice_in_range by lia. rewrite bind_mret.
  assert (Hnext : ∀ d, ∃ r,
    outcome (getRecordJson_range line schema (startIndex + Width field) d) = Done r).
  { intros d. apply IH; lia. }
  repeat case_decide; repeat case_match; simplify_eq; auto; by eexists.
Qed.

Lemma getRecordJson_no_panic line schema :
  Forall (λ field, 0 <= Width field) schema →
  go_string line →
  totalWidth schema <= len line →
  ∃ r, outcome (getRecordJson line schema) = Done r.
Proof.
  intros Hw Hgo Hlen. unfold getRecordJson.
  destruct (getRecordJson_range_no_panic line schema 0 ∅ Hw Hgo) as [r Hr]; [done|lia|].
  destruct (getRecordJson_range line schema 0 ∅) as [tr o]. simpl in Hr. subst o.
  rewrite bind_Done. destruct r as [data|r]; [|by eexists].
  destruct (json.Marshal data) as [js [e|]]; by eexists.
Qed.

(** C10 (as amended). For a schema without negative widths, and two lines
    that are both at least the total schema width long and agree on their
    first total-schema-width bytes, [getRecordJson] gives the same result,
    events included; that result is the one of the common prefix alone,
    and no slice is out of range. *)
Theorem decode_reads_prefix (schema : list Field) (line1 line2 : string) :
  Forall (λ field, 0 <= Width field) schema →
  go_string line1 → go_string line2 →
  totalWidth schema <= len line1 →
  totalWidth schema <= len line2 →
  slice line1 0 (totalWidth schema) = slice line2 0 (totalWidth schema) →
  getRecordJson line1 schema = getRecordJson line2 schema
  ∧ (∀ prefix, slice line1 0 (totalWidth schema) = Some prefix →
       getRecordJson line1 schema = getRecordJson prefix schema)
  ∧ ∃ r, outcome (getRecordJson line1 schema) = Done r.
Proof.
  intros Hw Hgo1 Hgo2 Hlen1 Hlen2 Hagree.
  pose proof (totalWidth_nonneg _ Hw) as Hpos.
  assert (Hmax : totalWidth schema <= max_int) by (unfold go_string in *; lia).
  split; [|split].
  - by apply (getRecordJson_prefix _ _ (totalWidth schema)).
  - intros prefix Hp.
    assert (Hlenp : len prefix = totalWidth schema).
    { rewrite slice_in_range in Hp by lia. injection Hp as <-.
      rewrite len_of_bytes, length_take, length_drop, length_bytes.
      unfold len in Hlen1. lia. }
    apply (getRecordJson_prefix _ _ (totalWidth schema)); try done; try lia.
    rewrite Hp. rewrite slice_in_range in Hp |- * by lia.
    injection Hp as <-. rewrite bytes_of_bytes.
    rewrite Z.sub_0_r, !drop_0, take_take. do 3 f_equal. lia.
  - by apply getRecordJson_no_panic.
Qed.

(** the theorem at the example schema, for [042T] and a longer line *)
Lemma decode_reads_prefix_witness :
  getRecordJson "042T" idFlag = getRecordJson "042T, and more" idFlag
  ∧ (∀ prefix, slice "042T" 0 (totalWidth idFlag) = Some prefix →
       getRecordJson "042T" idFlag = getRecordJson prefix idFlag)
  ∧ ∃ r, outcome (getRecordJson "042T" idFlag) = Done r.
Proof.
  apply (decode_reads_prefix idFlag "042T" "042T, and more").
  - repeat constructor; simpl; lia.
  - unfold go_string. vm_compute. discriminate.
  - unfold go_string. vm_compute. discriminate.
  - vm_compute. discriminate.
  - vm_compute. discriminate.
  - reflexivity.
Defined.

(** C10, as stated, fails: a loaded schema can have a negative width, and
    then bytes beyond the total schema width decide between an error and
    a panic. The rows [n,3,INTEGER] and [t,-2,TEXT] load; the total width
    is 1; the lines agree on their first byte. *)
Lemma decode_reads_prefix_counterexample :
  let rows := [ ["n"; "3"; "INTEGER"]; ["t"; "-2"; "TEXT"] ] in
  let schema := [ {| Name := "n"; Width := 3; Type_ := "INTEGER" |};
                  {| Name := "t"; Width := -2; Type_ := "TEXT" |} ] in
  let line1 := "1  " in
  let line2 := "1ab" in
  getSchema (oneFile rows []) "s.csv" = mkIO [Open "schemas/s.csv"] (Done (schema, None))
  ∧ totalWidth schema = 1
  ∧ totalWidth schema <= len line1
  ∧ totalWidth schema <= len line2
  ∧ slice line1 0 (totalWidth schema) = slice line2 0 (totalWidth schema)
  ∧ getRecordJson line1 schema = mkIO [] (Panicked SliceBoundsOutOfRange)
  ∧ getRecordJson line2 schema
    = mkIO [Printf "Found invalid integer value: %s" [FString "1ab"]]
        (Done (EmptyString, Some (NumError "Atoi" "1ab" ErrSyntax)))
  ∧ getRecordJson line1 schema ≠ getRecordJson line2 schema.
Proof. vm_compute. repeat split; discriminate. Qed.

(** ** Re-decoding the byte ranges of a line *)

Lemma bytes_concat_cons part parts : bytes (concat (part :: parts)) = bytes part ++ bytes (concat parts).
Proof. unfold concat. simpl. apply bytes_app. Qed.

(** Where the ranges exist they tile the line from [offset] on, and no
    width is negative. *)
Lemma fieldRanges_Some line schema offset parts :
  fieldRanges line schema offset = Some parts →
  0 <= offset <= len line →
  Forall (λ field, 0 <= Width field) schema
  ∧ offset + totalWidth schema <= len line
  ∧ bytes (concat parts)
    = take (Z.to_nat (totalWidth schema)) (drop (Z.to_nat offset) (bytes line)).
Proof.
  revert offset parts. induction schema as [|field schema IH]; intros offset parts Hr H0.
  { simpl in *. injection Hr as <-.
    split; [apply Forall_nil_2|]. split; [lia|done]. }
  simpl in Hr.
  destruct (slice line offset (offset + Width field)) as [raw|] eqn:Hraw; [|done].
  destruct (fieldRanges line schema (offset + Width field)) as [rest|] eqn:Hrest; [|done].
  simpl in Hr. injection Hr as <-.
  pose proof (slice_Some _ _ _ _ Hraw) as (_ & Hw & Hhi).
  destruct (IH _ _ Hrest) as (Hws & Hsum & Hcat); [lia|].
  pose proof (totalWidth_nonneg _ Hws).
  split; [apply Forall_cons_2; [lia|done]|]. split; [simpl; lia|].
  rewrite bytes_concat_cons, Hcat. simpl.
  rewrite slice_in_range in Hraw by lia. injection Hraw as <-.
  rewrite bytes_of_bytes.
  replace (Z.to_nat (offset + Width field))
    with (Z.to_nat offset + Z.to_nat (Width field))%nat by lia.
  replace (Z.to_nat (offset + Width field - offset)) with (Z.to_nat (Width field)) by lia.
  replace (Z.to_nat (Width field + totalWidth schema))
    with (Z.to_nat (Width field) + Z.to_nat (totalWidth schema))%nat by lia.
  rewrite <- drop_drop. apply take_take_drop.
Qed.

Lemma fieldRanges_is_Some line schema offset :
  Forall (λ field, 0 <= Width field) schema →
  0 <= offset →
  offset + totalWidth schema <= len line →
  is_Some (fieldRanges line schema offset).
Proof.
  intros Hw. revert offset.
  induction Hw as [|field schema Hf Hw IH]; intros offset H0 Hsum; [by eexists|].
  simpl in *. pose proof (totalWidth_nonneg _ Hw).
  rewrite slice_in_range by lia. simpl.
  destruct (IH (offset + Width field)) as [rest ->]; [lia..|]. by eexists.
Qed.

(** C3. For a schema that [getSchema] loaded and a line at least as long
    as the total schema width: if the per-field byte ranges
    [offset, offset + width) of the line exist, the line made of them
    decodes, with the same schema, to exactly what the line itself
    decodes to; and they exist unless the schema has a negative width
    (no range ends before it starts). *)
Theorem decode_of_field_ranges (w : World) (fileName : string) (tr : list event)
    (schema : list Field) (line : string) :
  getSchema w fileName = mkIO tr (Done (schema, None)) →
  go_string line →
  totalWidth schema <= len line →
  match fieldRanges line schema 0 with
  | Some parts => getRecordJson (concat parts) schema = getRecordJson line schema
  | None => Exists (λ field, Width field < 0) schema
  end.
Proof.
  intros _ Hgo Hlen.
  destruct (fieldRanges line schema 0) as [parts|] eqn:Hparts.
  - pose proof (len_nonneg line).
    destruct (fieldRanges_Some _ _ _ _ Hparts) as (Hw & _ & Hcat); [lia|].
    pose proof (totalWidth_nonneg _ Hw) as Hpos.
    rewrite drop_0 in Hcat.
    assert (Hlenp : len (concat parts) = totalWidth schema).
    { rewrite <- (of_bytes_bytes (concat parts)), Hcat, len_of_bytes, length_take.
      rewrite length_bytes. unfold len in Hlen. lia. }
    apply (getRecordJson_prefix _ _ (totalWidth schema)); try done; try lia.
    + unfold go_string in Hgo. lia.
    + rewrite !slice_in_range by lia. f_equal. f_equal.
      rewrite Z.sub_0_r, !drop_0, Hcat, take_take. f_equal. lia.
  - destruct (decide (Forall (λ field, 0 <= Width field) schema)) as [Hw|Hw].
    + destruct (fieldRanges_is_Some line schema 0 Hw) as [? ?]; [lia..|congruence].
    + apply not_Forall_Exists in Hw; [|apply _].
      eapply Exists_impl; [exact Hw|]. simpl. intros. lia.
Qed.

(** the theorem at the rows of the example and the line [042Txyz] *)
Lemma decode_of_field_ranges_witness :
  getRecordJson (concat ["042"; "T"]) idFlag = getRecordJson "042Txyz" idFlag.
Proof.
  apply (decode_of_field_ranges (oneFile idFlagRows []) "s.csv"
           [Open "schemas/s.csv"] idFlag "042Txyz"); [reflexivity | | ].
  - unfold go_string. vm_compute. discriminate.
  - vm_compute. discriminate.
Defined.

(** ** The decoded record *)

Section getRecordJson_range.
Variables (dataRecord : string) (field : Field) (schema : list Field)
  (startIndex : Z) (data : gmap string value).
Hypothesis Hwidth : is_int (Width field).
Hypothesis Hstart : 0 <= startIndex <= max_int.

(** one turn of the loop that goes on: the slice was in range, and the
    field's value, if its type is known, went into the map *)
Lemma getRecordJson_range_Next tr data' :
  getRecordJson_range dataRecord (field :: schema) startIndex data
  = mkIO tr (Done (Next data')) →
  ∃ raw, slice dataRecord startIndex (startIndex + Width field) = Some raw
    ∧ 0 <= Width field ∧ startIndex + Width field <= max_int
    ∧ ((∃ v, typedValue field (strings.TrimSpace raw) = Some v
             ∧ scalar v
             ∧ getRecordJson_range dataRecord schema (startIndex + Width field)
                 (<[Name field := v]> data) = mkIO tr (Done (Next data')))
       ∨ ((Type_ field ∉ vocabulary)
          ∧ getRecordJson_range dataRecord schema (startIndex + Width field) data
            = mkIO tr (Done (Next data')))).
Proof using All.
  cbn [getRecordJson_range]. unfold sliceIO.
  destruct (slice dataRecord startIndex (wrap (startIndex + Width field)))
    as [raw|] eqn:Hraw; [|by rewrite bind_raise].
  pose proof (slice_Some _ _ _ _ Hraw) as (_ & Hle & _).
  destruct (wrap_slice _ _ Hwidth Hstart Hle) as [Hwrap Hpos].
  pose proof (wrap_is_int (startIndex + Width field)) as [_ Hmax].
  rewrite Hwrap in *. rewrite bind_mret.
  intros Hrun. exists raw. do 3 (split; [done|]). revert Hrun.
  unfold typedValue, vocabulary.
  destruct (decide (Type_ field = DATA_TYPE_BOOLEAN)) as [Hb|Hb].
  { destruct (strconv.ParseBool _) as [b [e|]]; [by rewrite bind_Printf|].
    intros Hrun. left. by exists (VBool b). }
  destruct (decide (Type_ field = DATA_TYPE_INTEGER)) as [Hi|Hi].
  { destruct (strconv.Atoi _) as [n [e|]]; [by rewrite bind_Printf|].
    intros Hrun. left. by exists (VInt n). }
  destruct (decide (Type_ field = DATA_TYPE_TEXT)) as [Ht|Ht].
  { intros Hrun. left. by eexists (VString _). }
  intros Hrun. right. split; [|done].
  rewrite !elem_of_cons, elem_of_nil. intros [?|[?|[?|[]]]]; congruence.
Qed.
End getRecordJson_range.

(** A decode that runs to the end of the schema, with names that are
    pairwise distinct and new to the map, adds one entry per field. *)
Lemma getRecordJson_range_entries dataRecord schema :
  ∀ startIndex data tr data',
  Forall (λ field, is_int (Width field)) schema →
  Forall (λ field, Type_ field ∈ vocabulary) schema →
  NoDup (Name <$> schema) →
  (∀ field, field ∈ schema → data !! Name field = None) →
  0 <= startIndex <= max_int →
  getRecordJson_range dataRecord schema startIndex data = mkIO tr (Done (Next data')) →
  size data' = (size data + length schema)%nat
  ∧ (∀ k, k ∉ Name <$> schema → data' !! k = data !! k)
  ∧ (∀ i field, schema !! i = Some field →
       ∃ raw v,
         slice dataRecord (startIndex + offsetOf schema i)
           (startIndex + offsetOf schema i + Width field) = Some raw
         ∧ typedValue field (strings.TrimSpace raw) = Some v
         ∧ data' !! Name field = Some v).
Proof.
  induction schema as [|field schema IH];
    intros startIndex data tr data' Hint Hvoc Hnd Hfresh Hstart Hrun.
  { simpl in Hrun. injection Hrun as _ <-. simpl.
    split; [lia|]. split; [done|]. intros i f Hi. by rewrite lookup_nil in Hi. }
  apply Forall_cons in Hint as [Hw Hint]. apply Forall_cons in Hvoc as [Hv Hvoc].
  rewrite fmap_cons in Hnd. apply NoDup_cons in Hnd as [Hnew Hnd].
  destruct (getRecordJson_range_Next _ _ _ _ _ Hw Hstart _ _ Hrun)
    as (raw & Hraw & Hpos & Hmax & [(v & Hv' & _ & Hrest)|[Hno _]]); [|done].
  destruct (IH (startIndex + Width field) (<[Name field := v]> data) tr data'
              Hint Hvoc Hnd) as (Hsize & Hframe & Hfields); [|lia|exact Hrest|].
  { intros f Hf. rewrite lookup_insert_ne; [apply Hfresh; by right|].
    intros Heq. apply Hnew. rewrite Heq. by apply list_elem_of_fmap_2. }
  split; [|split].
  - rewrite Hsize, map_size_insert_None by (apply Hfresh; by left). simpl. lia.
  - intros k Hk. rewrite fmap_cons in Hk. apply not_elem_of_cons in Hk as [Hk1 Hk2].
    by rewrite Hframe, lookup_insert_ne.
  - intros [|i] f Hi; simpl in Hi.
    + injection Hi as <-. exists raw, v. unfold offsetOf. simpl.
      rewrite Z.add_0_r. split; [done|]. split; [done|].
      by rewrite Hframe, lookup_insert_eq.
    + destruct (Hfields i f Hi) as (raw' & v' & Hraw' & Hv'' & Hl).
      exists raw', v'. split; [|done].
      unfold offsetOf in *. simpl. by rewrite !Z.add_assoc.
Qed.

(** what [getRecordJson] does after its loop *)
Lemma getRecordJson_Done_inv dataRecord schema tr jsonData :
  getRecordJson dataRecord schema = mkIO tr (Done (jsonData, None)) →
  ∃ data, getRecordJson_range dataRecord schema 0 ∅ = mkIO tr (Done (Next data))
          ∧ json.Marshal data = (jsonData, None).
Proof.
  unfold getRecordJson. intros Hrun.
  apply bind_Done_inv in Hrun as (tr1 & r & tr2 & Hloop & Hend & ->).
  destruct r as [data|r].
  - exists data. destruct (json.Marshal data) as [js [e|]]; [done|].
    injection Hend as <- <-. by rewrite app_nil_r.
  - injection Hend as <- ->. exfalso. revert Hloop. clear.
    generalize (∅ : gmap string value) 0.
    induction schema as [|field schema IH]; intros data startIndex; [done|].
    cbn [getRecordJson_range]. unfold sliceIO.
    destruct (slice _ _ _); [rewrite bind_mret|by rewrite bind_raise].
    repeat case_decide; repeat case_match; rewrite ?bind_Printf; try done;
      try apply IH; io_value; congruence.
Qed.

(** C7 (as amended). For a schema whose field names are pairwise
    distinct and whose types are of the vocabulary (the widths being Go
    ints), and a line on which [getRecordJson] succeeds: the decoded
    record, of which the result is the JSON text, has exactly one entry
    per field, and maps each field's name to the typed value of the
    trimmed bytes [offset, offset + width) of the line. *)
Theorem one_entry_per_field (dataRecord : string) (schema : list Field)
    (tr : list event) (jsonData : string) :
  NoDup (Name <$> schema) →
  Forall (λ field, Type_ field ∈ vocabulary) schema →
  Forall (λ field, is_int (Width field)) schema →
  getRecordJson dataRecord schema = mkIO tr (Done (jsonData, None)) →
  ∃ data : gmap string value,
    getRecordJson_range dataRecord schema 0 ∅ = mkIO tr (Done (Next data))
    ∧ json.Marshal data = (jsonData, None)
    ∧ size data = length schema
    ∧ dom data = list_to_set (Name <$> schema)
    ∧ ∀ i field, schema !! i = Some field →
        ∃ raw v,
          slice dataRecord (offsetOf schema i) (offsetOf schema i + Width field) = Some raw
          ∧ typedValue field (strings.TrimSpace raw) = Some v
          ∧ data !! Name field = Some v.
Proof.
  intros Hnd Hvoc Hint Hrun.
  apply getRecordJson_Done_inv in Hrun as (data & Hloop & Hjson).
  exists data. do 2 (split; [done|]).
  destruct (getRecordJson_range_entries dataRecord schema 0 ∅ tr data Hint Hvoc Hnd)
    as (Hsize & Hframe & Hfields); [done|unfold max_int; lia|done|].
  rewrite map_size_empty in Hsize.
  split; [done|]. split.
  - apply set_eq. intros k. rewrite elem_of_dom, elem_of_list_to_set. split.
    + intros [v Hk]. destruct (decide (k ∈ Name <$> schema)) as [|Hno]; [done|].
      by rewrite Hframe, lookup_empty in Hk.
    + intros Hk. apply list_elem_of_fmap in Hk as (field & -> & Hin).
      apply list_elem_of_lookup in Hin as [i Hi].
      destruct (Hfields i field Hi) as (raw & v & _ & _ & Hl). by exists v.
  - intros i field Hi. destruct (Hfields i field Hi) as (raw & v & Hraw & Hv & Hl).
    exists raw, v. by rewrite !Z.add_0_l in Hraw.
Qed.

(** the theorem at the example schema and the line [042T] *)
Lemma one_entry_per_field_witness :
  ∃ data : gmap string value,
    getRecordJson_range "042T" idFlag 0 ∅ = mkIO [] (Done (Next data))
    ∧ json.Marshal data
      = ((json.Marshal (<["flag" := VBool true]> (<["id" := VInt 42]> ∅))).1, None)
    ∧ size data = length idFlag
    ∧ dom data = list_to_set (Name <$> idFlag)
    ∧ ∀ i field, idFlag !! i = Some field →
        ∃ raw v,
          slice "042T" (offsetOf idFlag i) (offsetOf idFlag i + Width field) = Some raw
          ∧ typedValue field (strings.TrimSpace raw) = Some v
          ∧ data !! Name field = Some v.
Proof.
  apply (one_entry_per_field "042T" idFlag []).
  - compute_done.
  - compute_done.
  - compute_done.
  - vm_compute. reflexivity.
Defined.

(** C7, as stated, fails: the rows [a,1,TEXT] and [a,1,TEXT] load, the
    line [xy] decodes, and the record has one entry for the two fields;
    the name of the first field is mapped to the value of the second. *)
Lemma one_entry_per_field_counterexample :
  let rows := [ ["a"; "1"; "TEXT"]; ["a"; "1"; "TEXT"] ] in
  let schema := [ {| Name := "a"; Width := 1; Type_ := "TEXT" |};
                  {| Name := "a"; Width := 1; Type_ := "TEXT" |} ] in
  let data : gmap string value := {[ "a" := VString "y" ]} in
  getSchema (oneFile rows []) "s.csv" = mkIO [Open "schemas/s.csv"] (Done (schema, None))
  ∧ getRecordJson_range "xy" schema 0 ∅ = mkIO [] (Done (Next data))
  ∧ getRecordJson "xy" schema = mkIO [] (Done ((json.Marshal data).1, None))
  ∧ size data = 1%nat ∧ length schema = 2%nat
  ∧ typedValue {| Name := "a"; Width := 1; Type_ := "TEXT" |} "x" = Some (VString "x")
  ∧ data !! "a" ≠ Some (VString "x").
Proof. vm_compute. repeat split. discriminate. Qed.

(** ** The serialization branch *)

Lemma encode_scalar v : scalar v ∨ v = VNil → (json.encode v).2 = None.
Proof. by intros [Hv| ->]; [destruct v|]. Qed.

Lemma members_scalar (data : gmap string value) keys :
  map_Forall (λ _ v, scalar v) data → (json.members data keys).2 = None.
Proof.
  intros Hdata. induction keys as [|k keys IH]; [done|]. simpl.
  pose proof (encode_scalar (default VNil (data !! k))) as Hk.
  destruct (json.encode _) as [v [e|]].
  - simpl in Hk. apply Hk. destruct (data !! k) as [v'|] eqn:Hl; [|by right].
    left. by apply (Hdata k).
  - by destruct (json.members data keys) as [rest [e|]].
Qed.

(** [json.Marshal] of a map of strings, ints and bools gives no error. *)
Lemma Marshal_scalar (data : gmap string value) :
  map_Forall (λ _ v, scalar v) data → (json.Marshal data).2 = None.
Proof.
  intros Hdata. unfold json.Marshal.
  pose proof (members_scalar data (merge_sort String.le (map_to_list data).*1) Hdata) as Hm.
  destruct (json.members _ _) as [body [e|]]; [done|done].
Qed.

(** The loop stores strings, ints and bools only. *)
Lemma getRecordJson_range_scalar dataRecord schema :
  ∀ startIndex data tr data',
  map_Forall (λ _ v, scalar v) data →
  getRecordJson_range dataRecord schema startIndex data = mkIO tr (Done (Next data')) →
  map_Forall (λ _ v, scalar v) data'.
Proof.
  induction schema as [|field schema IH]; intros startIndex data tr data' Hdata.
  { by intros [= _ <-]. }
  cbn [getRecordJson_range]. unfold sliceIO.
  destruct (slice _ _ _) as [raw|]; [rewrite bind_mret|by rewrite bind_raise].
  repeat case_decide; repeat case_match; rewrite ?bind_Printf; try done;
    apply IH; try done; by apply map_Forall_insert_2.
Qed.

(** The loop leaves the function only where a boolean or an integer does
    not parse, with the error of the parser and after one line of log. *)
Lemma getRecordJson_range_Return dataRecord schema :
  ∀ startIndex data tr r,
  getRecordJson_range dataRecord schema startIndex data = mkIO tr (Done (Return r)) →
  ∃ field lo hi raw e,
    field ∈ schema ∧ slice dataRecord lo hi = Some raw ∧ r = (EmptyString, Some e)
    ∧ ((Type_ field = DATA_TYPE_BOOLEAN
        ∧ (strconv.ParseBool (strings.TrimSpace raw)).2 = Some e
        ∧ tr = [Printf "Found invalid boolean value: %s" [FString (strings.TrimSpace raw)]])
       ∨ (Type_ field = DATA_TYPE_INTEGER
          ∧ (strconv.Atoi (strings.TrimSpace raw)).2 = Some e
          ∧ tr = [Printf "Found invalid integer value: %s" [FString (strings.TrimSpace raw)]])).
Proof.
  induction schema as [|field schema IH]; intros startIndex data tr r; [done|].
  cbn [getRecordJson_range]. unfold sliceIO.
  destruct (slice _ _ _) as [raw|] eqn:Hraw; [rewrite bind_mret|by rewrite bind_raise].
  assert (Hlater : ∀ d,
    getRecordJson_range dataRecord schema (wrap (startIndex + Width field)) d
    = mkIO tr (Done (Return r)) →
    ∃ field0 lo hi raw e,
      field0 ∈ field :: schema ∧ slice dataRecord lo hi = Some raw ∧ r = (EmptyString, Some e)
      ∧ ((Type_ field0 = DATA_TYPE_BOOLEAN
          ∧ (strconv.ParseBool (strings.TrimSpace raw)).2 = Some e
          ∧ tr = [Printf "Found invalid boolean value: %s" [FString (strings.TrimSpace raw)]])
         ∨ (Type_ field0 = DATA_TYPE_INTEGER
            ∧ (strconv.Atoi (strings.TrimSpace raw)).2 = Some e
            ∧ tr = [Printf "Found invalid integer value: %s" [FString (strings.TrimSpace raw)]]))).
  { intros d Hd. destruct (IH _ _ _ _ Hd) as (f & lo & hi & raw' & e & Hin & Hrest).
    exists f, lo, hi, raw', e. split; [by right|done]. }
  destruct (decide (Type_ field = DATA_TYPE_BOOLEAN)) as [Hb|Hb].
  { destruct (strconv.ParseBool _) as [b [e|]] eqn:Hparse; [|apply Hlater].
    rewrite bind_Printf. io_value.
    intros [= <- <-]. eexists field, _, _, raw, e.
    split; [by left|]. split; [exact Hraw|]. split; [done|]. left. by rewrite Hparse. }
  destruct (decide (Type_ field = DATA_TYPE_INTEGER)) as [Hi|Hi].
  { destruct (strconv.Atoi _) as [n [e|]] eqn:Hparse; [|apply Hlater].
    rewrite bind_Printf. io_value.
    intros [= <- <-]. eexists field, _, _, raw, e.
    split; [by left|]. split; [exact Hraw|]. split; [done|]. right. by rewrite Hparse. }
  destruct (decide (Type_ field = DATA_TYPE_TEXT)); apply Hlater.
Qed.

(** The loop that runs to its end logs nothing. *)
Lemma getRecordJson_range_silent dataRecord schema :
  ∀ startIndex data tr data',
  getRecordJson_range dataRecord schema startIndex data = mkIO tr (Done (Next data')) →
  tr = [].
Proof.
  induction schema as [|field schema IH]; intros startIndex data tr data'.
  { by intros [= <- _]. }
  cbn [getRecordJson_range]. unfold sliceIO.
  destruct (slice _ _ _) as [raw|]; [rewrite bind_mret|by rewrite bind_raise].
  repeat case_decide; repeat case_match; rewrite ?bind_Printf; try done; apply IH.
Qed.

(** what [getRecordJson] does once its loop has run to the end *)
Lemma getRecordJson_after_loop dataRecord schema tr data :
  getRecordJson_range dataRecord schema 0 ∅ = mkIO tr (Done (Next data)) →
  map_Forall (λ _ v, scalar v) data
  ∧ (json.Marshal data).2 = None
  ∧ getRecordJson dataRecord schema = mkIO [] (Done ((json.Marshal data).1, None)).
Proof.
  intros Hloop.
  pose proof (getRecordJson_range_silent _ _ _ _ _ _ Hloop) as ->.
  assert (Hs : map_Forall (λ _ v, scalar v) data).
  { eapply getRecordJson_range_scalar; [|exact Hloop]. apply map_Forall_empty. }
  pose proof (Marshal_scalar data Hs) as Hm.
  do 2 (split; [done|]). unfold getRecordJson. rewrite Hloop, bind_Done.
  by destruct (json.Marshal data) as [js [e|]].
Qed.

(** an error of [getRecordJson] is an error of one of the two parsers *)
Lemma getRecordJson_error dataRecord schema tr jsonData e :
  getRecordJson dataRecord schema = mkIO tr (Done (jsonData, Some e)) →
  ∃ field lo hi raw,
    field ∈ schema ∧ slice dataRecord lo hi = Some raw
    ∧ ((Type_ field = DATA_TYPE_BOOLEAN
        ∧ (strconv.ParseBool (strings.TrimSpace raw)).2 = Some e)
       ∨ (Type_ field = DATA_TYPE_INTEGER
          ∧ (strconv.Atoi (strings.TrimSpace raw)).2 = Some e)).
Proof.
  destruct (getRecordJson_range dataRecord schema 0 ∅) as [tr0 [[data|r]|p]] eqn:Hloop.
  - by destruct (getRecordJson_after_loop _ _ _ _ Hloop) as (_ & _ & ->).
  - destruct (getRecordJson_range_Return _ _ _ _ _ _ Hloop)
      as (field & lo & hi & raw & e0 & Hin & Hraw & -> & Hcase).
    unfold getRecordJson. rewrite Hloop, bind_Done.
    cbv [mret IO_ret]. cbn [trace outcome].
    intros [= _ _ <-]. exists field, lo, hi, raw.
    do 2 (split; [done|]). destruct Hcase as [(? & ? & _)|(? & ? & _)]; auto.
  - unfold getRecordJson. by rewrite Hloop, bind_Panicked.
Qed.

(** the line of log of the marshal failure is never written *)
Lemma getRecordJson_no_marshal_log dataRecord schema e :
  Printf "Got error attempting to marshal record data into JSON: %+v" [FError e]
  ∉ trace (getRecordJson dataRecord schema).
Proof.
  destruct (getRecordJson_range dataRecord schema 0 ∅) as [tr0 [[data|r]|p]] eqn:Hloop.
  - destruct (getRecordJson_after_loop _ _ _ _ Hloop) as (_ & _ & ->).
    apply not_elem_of_nil.
  - destruct (getRecordJson_range_Return _ _ _ _ _ _ Hloop)
      as (field & lo & hi & raw & e0 & Hin & Hraw & -> & Hcase).
    unfold getRecordJson. rewrite Hloop, bind_Done.
    cbv [mret IO_ret]. cbn [trace outcome]. rewrite app_nil_r.
    destruct Hcase as [(_ & _ & ->)|(_ & _ & ->)];
      rewrite list_elem_of_singleton; congruence.
  - unfold getRecordJson. rewrite Hloop, bind_Panicked.
    intros Hin. revert Hloop Hin. clear. cbn [trace].
    generalize (∅ : gmap string value) 0. revert tr0.
    induction schema as [|field schema IH]; intros tr0 data startIndex; [done|].
    cbn [getRecordJson_range]. unfold sliceIO.
    destruct (slice _ _ _) as [raw|];
      [rewrite bind_mret|rewrite bind_raise; intros [= <- _]; apply not_elem_of_nil].
    repeat case_decide; repeat case_match; rewrite ?bind_Printf; try done; apply IH.
Qed.

(** C9. For every schema and every line: if the loop of [getRecordJson]
    runs to its end, every value of the decoded record is a string, an
    int or a bool, [json.Marshal] of the record gives no error and the
    call returns its text with a nil error; if [getRecordJson] returns
    an error, that error is the one of [ParseBool] on the trimmed bytes
    of a BOOLEAN field or of [Atoi] on those of an INTEGER field; and
    the line of log of the marshal failure is never written. *)
Theorem marshal_failure_unreachable (dataRecord : string) (schema : list Field) :
  (∀ tr data,
     getRecordJson_range dataRecord schema 0 ∅ = mkIO tr (Done (Next data)) →
     map_Forall (λ _ v, scalar v) data
     ∧ (json.Marshal data).2 = None
     ∧ getRecordJson dataRecord schema = mkIO [] (Done ((json.Marshal data).1, None)))
  ∧ (∀ tr jsonData e,
       getRecordJson dataRecord schema = mkIO tr (Done (jsonData, Some e)) →
       ∃ field lo hi raw,
         field ∈ schema ∧ slice dataRecord lo hi = Some raw
         ∧ ((Type_ field = DATA_TYPE_BOOLEAN
             ∧ (strconv.ParseBool (strings.TrimSpace raw)).2 = Some e)
            ∨ (Type_ field = DATA_TYPE_INTEGER
               ∧ (strconv.Atoi (strings.TrimSpace raw)).2 = Some e)))
  ∧ (∀ e, Printf "Got error attempting to marshal record data into JSON: %+v" [FError e]
          ∉ trace (getRecordJson dataRecord schema)).
Proof.
  split; [|split].
  - apply getRecordJson_after_loop.
  - apply getRecordJson_error.
  - apply getRecordJson_no_marshal_log.
Qed.

(** the theorem at the example schema and a line whose id does not parse *)
Lemma marshal_failure_unreachable_witness :
  ∃ field lo hi raw,
    field ∈ idFlag ∧ slice "04xT" lo hi = Some raw
    ∧ ((Type_ field = DATA_TYPE_BOOLEAN
        ∧ (strconv.ParseBool (strings.TrimSpace raw)).2 = Some (NumError "Atoi" "04x" ErrSyntax))
       ∨ (Type_ field = DATA_TYPE_INTEGER
          ∧ (strconv.Atoi (strings.TrimSpace raw)).2 = Some (NumError "Atoi" "04x" ErrSyntax))).
Proof.
  destruct (marshal_failure_unreachable "04xT" idFlag) as (_ & Herr & _).
  apply (Herr [Printf "Found invalid integer value: %s" [FString "04x"]] EmptyString).
  reflexivity.
Defined.

(** ** Lines shorter than the schema *)

(** A loop that runs to its end read the line up to the total width. *)
Lemma getRecordJson_range_fits dataRecord schema :
  ∀ startIndex data tr data',
  Forall (λ field, is_int (Width field)) schema →
  0 <= startIndex <= max_int →
  startIndex <= len dataRecord →
  getRecordJson_range dataRecord schema startIndex data = mkIO tr (Done (Next data')) →
  startIndex + totalWidth schema <= len dataRecord.
Proof.
  induction schema as [|field schema IH]; intros startIndex data tr data' Hint Hs Hlen Hrun.
  { simpl. lia. }
  apply Forall_cons in Hint as [Hw Hint].
  destruct (getRecordJson_range_Next _ _ _ _ _ Hw Hs _ _ Hrun)
    as (raw & Hraw & Hpos & Hmax & Hrest).
  apply slice_Some in Hraw as (_ & _ & Hhi). simpl.
  assert (Hgo : ∀ d, getRecordJson_range dataRecord schema (startIndex + Width field) d
                     = mkIO tr (Done (Next data')) →
                     startIndex + Width field + totalWidth schema <= len dataRecord).
  { intros d Hd. eapply IH; [done| |done|exact Hd]. lia. }
  destruct Hrest as [(v & _ & _ & Hrest)|[_ Hrest]]; apply Hgo in Hrest; lia.
Qed.

(** The one panic of the decoder is the slice out of range. *)
Lemma getRecordJson_range_Panicked dataRecord schema :
  ∀ startIndex data tr p,
  getRecordJson_range dataRecord schema startIndex data = mkIO tr (Panicked p) →
  p = SliceBoundsOutOfRange.
Proof.
  induction schema as [|field schema IH]; intros startIndex data tr p; [done|].
  cbn [getRecordJson_range]. unfold sliceIO.
  destruct (slice _ _ _) as [raw|];
    [rewrite bind_mret|by rewrite bind_raise; intros [= _ <-]].
  repeat case_decide; repeat case_match; rewrite ?bind_Printf; try done; apply IH.
Qed.

(** On a line shorter than the total width of the schema the decoder
    never succeeds, and never returns an error of its own for the short
    line: it panics, unless a field before the end of the line fails to
    parse. *)
Lemma short_line_outcome dataRecord schema :
  Forall (λ field, is_int (Width field)) schema →
  len dataRecord < totalWidth schema →
  match outcome (getRecordJson dataRecord schema) with
  | Panicked p => p = SliceBoundsOutOfRange
  | Done (_, Some e) => InvalidBoolean e ∨ InvalidInteger e
  | Done (_, None) => False
  end.
Proof.
  intros Hint Hshort.
  destruct (getRecordJson dataRecord schema) as [tr [[js [e|]]|p]] eqn:Hrun; cbn [outcome].
  - destruct (getRecordJson_error _ _ _ _ _ Hrun)
      as (field & lo & hi & raw & _ & _ & [[_ He]|[_ He]]).
    + left. destruct (strconv.ParseBool _) as [b o] eqn:Hp. simpl in He. subst o.
      apply ParseBool_error in Hp. by eexists.
    + right. destruct (strconv.Atoi _) as [n o] eqn:Hp. simpl in He. subst o.
      apply Atoi_error in Hp as [kind ->]. by eexists _, _.
  - apply getRecordJson_Done_inv in Hrun as (data & Hloop & _).
    apply getRecordJson_range_fits in Hloop; [lia|done|unfold max_int; lia|].
    apply len_nonneg.
  - unfold getRecordJson in Hrun.
    destruct (getRecordJson_range dataRecord schema 0 ∅) as [tr0 [[data|r]|p0]] eqn:Hloop.
    + rewrite bind_Done in Hrun. by destruct (json.Marshal data) as [? [?|]].
    + by rewrite bind_Done in Hrun.
    + rewrite bind_Panicked in Hrun. injection Hrun as _ <-.
      by eapply getRecordJson_range_Panicked.
Qed.

(** C1, on the code. The line [04] is shorter than the total width 4 of
    the schema {id: 3, INTEGER; flag: 1, BOOLEAN}. [getRecordJson] does
    not return an error for it: the slice panics. The coordinator logs
    nothing and skips nothing: the run ends in that panic, and the next
    line of the same data file, [042T], is never decoded or posted. *)
Theorem short_line_panics :
  let w := oneFile idFlagRows ["04"; "042T"] in
  len "04" < totalWidth idFlag
  ∧ getRecordJson "04" idFlag = mkIO [] (Panicked SliceBoundsOutOfRange)
  ∧ main_records w idFlag ["04"; "042T"] = mkIO [] (Panicked SliceBoundsOutOfRange)
  ∧ main w = mkIO [Open "schemas/s.csv"; Open "data/s.txt"] (Panicked SliceBoundsOutOfRange).
Proof. vm_compute. repeat split. Qed.

(** ** Pairing a schema file with its data file *)

Lemma dataFileNameOf_dot base ext :
  "."%char ∉ bytes ext →
  dataFileNameOf (base +:+ String "." ext) = mret (Some (base +:+ ".txt")).
Proof.
  intros Hno. unfold dataFileNameOf. rewrite LastIndex_last by done.
  pose proof (len_nonneg base). rewrite decide_False by lia.
  unfold sliceIO. by rewrite slice_base, bind_mret.
Qed.

Lemma dataFileNameOf_no_dot fileName :
  "."%char ∉ bytes fileName → dataFileNameOf fileName = mret None.
Proof.
  intros Hno. unfold dataFileNameOf. by rewrite LastIndex_absent, decide_True.
Qed.

(** whatever [getSchema] does, the one file it opens is the schema file *)
Lemma getSchema_range_no_Open fileName records :
  ∀ i fields name, Open name ∉ trace (getSchema_range fileName i records fields).
Proof.
  induction records as [|record records IH]; intros i fields name.
  { apply not_elem_of_nil. }
  cbn [getSchema_range].
  unfold CSV_WIDTH_INDEX, CSV_DATA_TYPE_INDEX, CSV_NAME_INDEX.
  destruct (record !! 1%nat) as [widthCol|] eqn:Hc1;
    [|rewrite (index_None _ _ Hc1), bind_raise; apply not_elem_of_nil].
  assert (Hl1 : (1 < length record)%nat) by (by eapply lookup_lt_Some).
  rewrite !(index_lookup _ 1), bind_mret by lia.
  destruct (strconv.Atoi _) as [width [e|]].
  { rewrite bind_mret, bind_Printf. io_value.
    rewrite list_elem_of_singleton. congruence. }
  destruct (record !! 2%nat) as [dataType|] eqn:Hc2;
    [|rewrite (index_None _ _ Hc2), bind_raise; apply not_elem_of_nil].
  assert (Hl2 : (2 < length record)%nat) by (by eapply lookup_lt_Some).
  rewrite !(index_lookup _ 2), !(index_lookup _ 0), !bind_mret by lia.
  destruct (_ && _).
  - rewrite bind_Printf. io_value.
    rewrite list_elem_of_singleton. congruence.
  - apply IH.
Qed.

Lemma getSchema_Open w fileName name :
  Open name ∈ trace (getSchema w fileName) → name = "schemas/" +:+ fileName.
Proof.
  unfold getSchema. rewrite bind_Open.
  destruct (OpenErr w _) as [e|].
  { rewrite bind_Printf. io_value.
    rewrite !elem_of_cons, elem_of_nil. intros [[=]|[[=]|[]]]. done. }
  destruct (ReadAll w _) as [records [e|]].
  { rewrite bind_Printf. io_value.
    rewrite !elem_of_cons, elem_of_nil. intros [[=]|[[=]|[]]]. done. }
  pose proof (getSchema_range_no_Open fileName records 0
                (replicate (length records) zeroField) name) as Hno.
  destruct (getSchema_range fileName 0 records _) as [tr [[fields|r]|p]];
    rewrite ?bind_Done, ?bind_Panicked; cbv [after mret IO_ret];
    cbn [trace outcome app] in *;
    rewrite ?app_nil_r, elem_of_cons; (intros [[=]|?]; done).
Qed.

(** the decoder and the sink open no file *)
Lemma getRecordJson_range_no_Open dataRecord schema :
  ∀ startIndex data name,
  Open name ∉ trace (getRecordJson_range dataRecord schema startIndex data).
Proof.
  induction schema as [|field schema IH]; intros startIndex data name.
  { apply not_elem_of_nil. }
  cbn [getRecordJson_range]. unfold sliceIO.
  destruct (slice _ _ _) as [raw|];
    [rewrite bind_mret|rewrite bind_raise; apply not_elem_of_nil].
  repeat case_decide; repeat case_match; rewrite ?bind_Printf; try apply IH;
    io_value;
    rewrite list_elem_of_singleton; congruence.
Qed.

Lemma getRecordJson_no_Open dataRecord schema name :
  Open name ∉ trace (getRecordJson dataRecord schema).
Proof.
  unfold getRecordJson. intros Hin.
  apply elem_of_trace_bind in Hin as [Hin|[r Hin]].
  { by apply getRecordJson_range_no_Open in Hin. }
  revert Hin. destruct r as [data|r]; [|apply not_elem_of_nil].
  destruct (json.Marshal data) as [js [e|]]; [|apply not_elem_of_nil].
  rewrite bind_Printf. io_value.
  rewrite list_elem_of_singleton. congruence.
Qed.

Lemma postRecord_no_Open w jsonRecord name : Open name ∉ trace (postRecord w jsonRecord).
Proof.
  unfold postRecord, http.Post. rewrite bind_Printf, elem_of_trace_after.
  intros [Hin|Hin]; [by apply list_elem_of_singleton in Hin|]. revert Hin.
  unfold emit, mbind, IO_bind, mret, IO_ret, log.Printf, emit. cbn [trace outcome app].
  destruct (Respond w jsonRecord) as [resp [e|]]; [|destruct (BodyErr resp)];
    cbn [trace outcome app]; rewrite !elem_of_cons, elem_of_nil;
    intros [[=]|[[=]|[]]].
Qed.

Lemma main_records_no_Open w schema dataRecords name :
  Open name ∉ trace (main_records w schema dataRecords).
Proof.
  induction dataRecords as [|dataRecord dataRecords IH]; [apply not_elem_of_nil|].
  cbn [main_records]. intros Hin.
  apply elem_of_trace_bind in Hin as [Hin|[[recordJson [e|]] Hin]].
  - by apply getRecordJson_no_Open in Hin.
  - rewrite bind_Printf, elem_of_trace_after, list_elem_of_singleton in Hin.
    by destruct Hin as [[=]|Hin].
  - apply elem_of_trace_bind in Hin as [Hin|[_ Hin]]; [|done].
    by apply postRecord_no_Open in Hin.
Qed.

Lemma getData_Open w fileName name :
  Open name ∈ trace (getData w fileName) → name = "data/" +:+ fileName.
Proof.
  unfold getData. rewrite bind_Open, elem_of_trace_after, list_elem_of_singleton.
  intros [[=]|Hin]; [done|]. exfalso. revert Hin.
  destruct (OpenErr w _) as [e|]; [|destruct (Scan w _) as [records [e|]]];
    rewrite ?bind_Printf; io_value;
    rewrite ?list_elem_of_singleton, ?elem_of_nil; congruence.
Qed.

(** C8. For every schema file name: the name of the paired data file is
    the name up to (and without) its last dot, followed by [.txt]; once
    the schema is loaded the coordinator opens that data file and no
    other; and if the name has no dot, the turn of the coordinator for
    the file is the load of the schema followed by one line of log that
    names the file, with no data file opened: where the load returns, the
    turn ends normally and the run goes on to the next file. *)
Theorem data_file_pairing (w : World) (fileName : string) :
  (∀ base ext,
     fileName = base +:+ String "." ext → "."%char ∉ bytes ext →
     dataFileNameOf fileName = mret (Some (base +:+ ".txt"))
     ∧ (∀ name, Open name ∈ trace (main_file w fileName) →
          name = "schemas/" +:+ fileName ∨ name = "data/" +:+ base +:+ ".txt")
     ∧ (∀ tr schema, getSchema w fileName = mkIO tr (Done (schema, None)) →
          ∃ tr', trace (main_file w fileName)
                 = tr ++ Open ("data/" +:+ base +:+ ".txt") :: tr'))
  ∧ ("."%char ∉ bytes fileName →
     dataFileNameOf fileName = mret None
     ∧ main_file w fileName
       = ('(schema, schemaErr) ← getSchema w fileName;
          log.Printf (match schemaErr with
                      | Some _ => "Skipping schema file %s"
                      | None => "Found schema filename with no '.': %s. Skipping..."
                      end) [FString fileName])
     ∧ (∀ name, Open name ∈ trace (main_file w fileName) → name = "schemas/" +:+ fileName)
     ∧ (∀ tr schema err, getSchema w fileName = mkIO tr (Done (schema, err)) →
          ∃ format, main_file w fileName
                    = mkIO (tr ++ [Printf format [FString fileName]]) (Done tt))).
Proof.
  split.
  - intros base ext Hname Hext.
    pose proof (dataFileNameOf_dot base ext Hext) as Hpair. rewrite <- Hname in Hpair.
    split; [done|]. split.
    + intros name Hin. unfold main_file in Hin.
      apply elem_of_trace_bind in Hin as [Hin|[[schema [e|]] Hin]].
      * left. by apply getSchema_Open in Hin.
      * by apply list_elem_of_singleton in Hin.
      * rewrite Hpair, bind_mret in Hin.
        apply elem_of_trace_bind in Hin as [Hin|[[dataRecords [e|]] Hin]].
        -- right. by apply getData_Open in Hin.
        -- by apply list_elem_of_singleton in Hin.
        -- by apply main_records_no_Open in Hin.
    + intros tr schema Hload. unfold main_file.
      rewrite Hload, bind_Done_after, Hpair, bind_mret.
      unfold getData. rewrite bind_Open, bind_after. unfold after. cbn [trace app].
      by eexists.
  - intros Hno. pose proof (dataFileNameOf_no_dot fileName Hno) as Hpair.
    assert (Hturn : main_file w fileName
       = ('(schema, schemaErr) ← getSchema w fileName;
          log.Printf (match schemaErr with
                      | Some _ => "Skipping schema file %s"
                      | None => "Found schema filename with no '.': %s. Skipping..."
                      end) [FString fileName])).
    { unfold main_file. apply bind_ext. intros [schema [e|]]; [done|].
      by rewrite Hpair, bind_mret. }
    split; [done|]. split; [done|]. split.
    + intros name Hin. rewrite Hturn in Hin.
      apply elem_of_trace_bind in Hin as [Hin|[[schema err] Hin]].
      * by apply getSchema_Open in Hin.
      * by apply list_elem_of_singleton in Hin.
    + intros tr schema err Hload. rewrite Hturn, Hload, bind_Done_after.
      by eexists.
Qed.

(** the theorem at a name with two dots and at a name with none *)
Lemma data_file_pairing_witness :
  dataFileNameOf "measures.v2.csv" = mret (Some "measures.v2.txt")
  ∧ dataFileNameOf "README" = mret None.
Proof.
  destruct (data_file_pairing (oneFile [] []) "measures.v2.csv") as [Hdot _].
  destruct (data_file_pairing (oneFile [] []) "README") as [_ Hnone].
  split.
  - apply (Hdot "measures.v2" "csv"); [reflexivity|compute_done].
  - apply Hnone. compute_done.
Defined.

(** ** The run *)

(** C2, on the code. The schemas directory is listed without error, and
    the run still ends in a panic: on a data line shorter than the
    schema (after the record of the line before it was posted, and
    without a look at the line after it), and on a schema row that has
    no width column. *)
Theorem run_panics_after_listing :
  let w1 := oneFile idFlagRows ["042T"; "04"; "1  F"] in
  let w2 := oneFile [ ["id"] ] [] in
  let posted := "{" +:+ json.quote "flag" +:+ ":true," +:+ json.quote "id" +:+ ":42}" in
  (getSchemaFilenames w1 = mret (["s.csv"], None)
   ∧ main w1 = mkIO ([Open "schemas/s.csv"; Open "data/s.txt"] ++ trace (postRecord w1 posted))
                 (Panicked SliceBoundsOutOfRange))
  ∧ (getSchemaFilenames w2 = mret (["s.csv"], None)
     ∧ main w2 = mkIO [Open "schemas/s.csv"] (Panicked (IndexOutOfRange 1 1))).
Proof. vm_compute. repeat split. Qed.

(** The one panic the program means to have: the directory that cannot
    be listed. *)
Lemma unlisted_directory_panics w e :
  (ReadDir w "schemas").2 = Some e →
  main w = mkIO [Printf "Got error attempting to list schema files: %+v" [FError e];
                 Print [FError e]] (Panicked (LogPanic e)).
Proof.
  intros Herr. unfold main, getSchemaFilenames.
  destruct (ReadDir w "schemas") as [files o]. simpl in Herr. by subst o.
Qed.

(** * More of the program *)

(** ** The schema loader: what a loaded schema is, and how a load fails *)

(** X1. A schema that [getSchema] returned with a nil error holds one
    field per row of the file, in row order: the name is column 0 as it
    is, the width the integer of the trimmed column 1, the type column 2
    as it is, which is exactly TEXT, INTEGER or BOOLEAN; every row has at
    least three columns, and the load logged nothing. *)
Theorem loaded_schema (w : World) (fileName : string) (tr : list event)
    (schema : list Field) :
  getSchema w fileName = mkIO tr (Done (schema, None)) →
  tr = [Open ("schemas/" +:+ fileName)]
  ∧ length schema = length (rowsOf w fileName)
  ∧ (∀ i record, rowsOf w fileName !! i = Some record →
       (3 <= length record)%nat
       ∧ ∃ width, strconv.Atoi (strings.TrimSpace (col record 1)) = (width, None)
           ∧ schema !! i = Some {| Name := col record 0; Width := width;
                                   Type_ := col record 2 |})
  ∧ Forall (λ field, Type_ field ∈ vocabulary) schema.
Proof.
  intros Hrun. destruct (getSchema_Done_inv _ _ _ _ Hrun) as [Hopen Hread].
  unfold rowsOf. destruct (ReadAll w _) as [records o] eqn:Hrecords.
  simpl in Hread. subst o. cbn [fst].
  destruct (getSchema_success w fileName records Hopen Hrecords tr schema Hrun)
    as [Hall ->].
  rewrite (getSchema_all_valid w fileName records Hopen Hrecords Hall) in Hrun.
  injection Hrun as <-.
  split; [done|]. split; [by rewrite length_fmap|]. split.
  - intros i record Hi.
    pose proof (proj1 (Forall_lookup _ _) Hall i record Hi) as (Hlen & Hw & _).
    split; [done|]. unfold badWidth, widthOf, CSV_WIDTH_INDEX in Hw.
    destruct (strconv.Atoi _) as [width [e|]] eqn:Hwidth; [by destruct Hw|].
    exists width. split; [done|].
    rewrite list_lookup_fmap, Hi. simpl. unfold fieldOf, widthOf, CSV_WIDTH_INDEX.
    by rewrite Hwidth.
  - apply Forall_fmap. eapply Forall_impl; [exact Hall|].
    intros record (_ & _ & Ht). simpl. unfold badType in Ht. by apply dec_stable.
Qed.

(** the theorem at the two rows of the example *)
Lemma loaded_schema_witness :
  length idFlag = length (rowsOf (oneFile idFlagRows []) "s.csv")
  ∧ Forall (λ field, Type_ field ∈ vocabulary) idFlag.
Proof.
  destruct (loaded_schema (oneFile idFlagRows []) "s.csv" [Open "schemas/s.csv"] idFlag)
    as (_ & Hlen & _ & Hvoc); [reflexivity|]. by split.
Defined.

(** a panic of the loop of [getSchema] is an index out of range, on a row
    that is too short *)
Lemma getSchema_range_Panicked fileName records :
  ∀ i fields tr p,
  getSchema_range fileName i records fields = mkIO tr (Panicked p) →
  ∃ record k,
    record ∈ records ∧ (k = 1 ∨ k = 2)%nat ∧ (length record <= k)%nat
    ∧ p = IndexOutOfRange (Z.of_nat k) (Z.of_nat (length record)).
Proof.
  induction records as [|record records IH]; intros i fields tr p; [done|].
  cbn [getSchema_range].
  unfold CSV_WIDTH_INDEX, CSV_DATA_TYPE_INDEX, CSV_NAME_INDEX.
  destruct (record !! 1%nat) as [widthCol|] eqn:Hc1.
  2:{ rewrite (index_None _ _ Hc1), bind_raise. intros [= _ <-].
      exists record, 1%nat. apply lookup_ge_None in Hc1.
      split; [by left|]. split; [by left|]. done. }
  assert (Hl1 : (1 < length record)%nat) by (by eapply lookup_lt_Some).
  rewrite !(index_lookup _ 1), bind_mret by lia.
  destruct (strconv.Atoi _) as [width [e|]].
  { by rewrite bind_mret, bind_Printf. }
  destruct (record !! 2%nat) as [dataType|] eqn:Hc2.
  2:{ rewrite (index_None _ _ Hc2), bind_raise. intros [= _ <-].
      exists record, 2%nat. apply lookup_ge_None in Hc2.
      split; [by left|]. split; [by right|]. done. }
  assert (Hl2 : (2 < length record)%nat) by (by eapply lookup_lt_Some).
  rewrite !(index_lookup _ 2), !(index_lookup _ 0), !bind_mret by lia.
  destruct (_ && _); [by rewrite bind_Printf|].
  intros Hrun. destruct (IH _ _ _ _ Hrun) as (r & k & Hin & Hrest).
  exists r, k. split; [by right|done].
Qed.

Lemma getSchema_Panicked w fileName tr p :
  getSchema w fileName = mkIO tr (Panicked p) →
  ∃ record k,
    record ∈ rowsOf w fileName ∧ (k = 1 ∨ k = 2)%nat ∧ (length record <= k)%nat
    ∧ p = IndexOutOfRange (Z.of_nat k) (Z.of_nat (length record)).
Proof.
  unfold getSchema, rowsOf. rewrite bind_Open.
  destruct (OpenErr w _) as [e|]; [by rewrite bind_Printf|].
  destruct (ReadAll w _) as [records [e|]]; [by rewrite bind_Printf|].
  destruct (getSchema_range fileName 0 records _) as [tr0 [[fields|r]|p0]] eqn:Hloop;
    [by rewrite bind_Done..|].
  rewrite bind_Panicked. intros [= _ <-].
  by apply getSchema_range_Panicked in Hloop.
Qed.

Lemma getSchema_returns w fileName :
  Forall (λ record, (3 <= length record)%nat) (rowsOf w fileName) →
  ∃ r, outcome (getSchema w fileName) = Done r.
Proof.
  intros Hcols.
  destruct (getSchema w fileName) as [tr [r|p]] eqn:Hrun; [by eexists|].
  destruct (getSchema_Panicked _ _ _ _ Hrun) as (record & k & Hin & Hk & Hlen & _).
  pose proof (proj1 (Forall_forall _ _) Hcols record Hin) as H3. simpl in H3. lia.
Qed.

(** X2. [getSchema] panics only with an index out of range, on a row
    that has no width column or no type column; a schema file whose rows
    all have at least three columns never makes it panic, whatever the
    columns hold and whether or not the file opens or parses. *)
Theorem getSchema_panics_on_short_rows (w : World) (fileName : string) :
  (∀ tr p, getSchema w fileName = mkIO tr (Panicked p) →
     ∃ record k,
       record ∈ rowsOf w fileName ∧ (k = 1 ∨ k = 2)%nat ∧ (length record <= k)%nat
       ∧ p = IndexOutOfRange (Z.of_nat k) (Z.of_nat (length record)))
  ∧ (Forall (λ record, (3 <= length record)%nat) (rowsOf w fileName) →
     ∃ r, outcome (getSchema w fileName) = Done r).
Proof. split; [apply getSchema_Panicked|apply getSchema_returns]. Qed.

(** the theorem at a file of one row with one column, and at the example *)
Lemma getSchema_panics_on_short_rows_witness :
  (∃ record k,
     record ∈ rowsOf (oneFile [ ["id"] ] []) "s.csv" ∧ (k = 1 ∨ k = 2)%nat
     ∧ (length record <= k)%nat
     ∧ IndexOutOfRange 1 1 = IndexOutOfRange (Z.of_nat k) (Z.of_nat (length record)))
  ∧ ∃ r, outcome (getSchema (oneFile idFlagRows []) "s.csv") = Done r.
Proof.
  split.
  - destruct (getSchema_panics_on_short_rows (oneFile [ ["id"] ] []) "s.csv") as [Hp _].
    apply (Hp [Open "schemas/s.csv"]). reflexivity.
  - destruct (getSchema_panics_on_short_rows (oneFile idFlagRows []) "s.csv") as [_ Hd].
    apply Hd. compute_done.
Defined.

Section getSchema_range_report.
Variables (fileName : string) (i : nat) (record : list string)
  (records : list (list string)) (fields : list Field).

Lemma getSchema_range_badWidth_report e :
  (2 <= length record)%nat → (widthOf record).2 = Some e →
  getSchema_range fileName i (record :: records) fields
  = mkIO [Printf "Found invalid integer value for width in CSV file %s, record %d: '%s'"
            [FString fileName; FInt (Z.of_nat i + 1); FString (col record 1)]]
      (Done (Return ([], Some e))).
Proof.
  intros Hlen Hw. cbn [getSchema_range].
  unfold CSV_WIDTH_INDEX. rewrite !index_lookup by lia. rewrite bind_mret.
  unfold widthOf, CSV_WIDTH_INDEX in Hw.
  destruct (strconv.Atoi _) as [width [e'|]] eqn:Hwidth; [|done].
  simpl in Hw. injection Hw as ->. by rewrite bind_mret.
Qed.

Lemma getSchema_range_badType_report :
  (3 <= length record)%nat → ¬ badWidth record → badType record →
  let errMsg :=
    "Found invalid value for data type in CSV file " +:+ fileName +:+
    ", record " +:+ strconv.Itoa (Z.of_nat i + 1) +:+ ": '" +:+ col record 2 +:+ "'" in
  getSchema_range fileName i (record :: records) fields
  = mkIO [Printf errMsg []] (Done (Return ([], Some (errorString errMsg)))).
Proof.
  intros Hlen Hw Ht. cbn [getSchema_range].
  unfold CSV_WIDTH_INDEX, CSV_DATA_TYPE_INDEX, CSV_NAME_INDEX.
  rewrite !index_lookup by lia. rewrite bind_mret.
  unfold badWidth, widthOf in Hw.
  destruct (strconv.Atoi _) as [width [e|]] eqn:Hwidth; [by destruct Hw|].
  by rewrite bind_mret, type_check_true by done.
Qed.
End getSchema_range_report.

(** X3. What a failed load reports. After rows that all pass, a row
    (of at least two columns) whose trimmed width column does not parse
    makes [getSchema] return the error of Atoi about the trimmed column,
    after one line of log that gives the file name, the 1-based number of
    the row and the column as written; a row (of at least three columns)
    whose width parses and whose type is not of the vocabulary makes it
    return an error whose text, also logged, gives the file name, the
    1-based number of the row and the type. In both cases the list is
    nil. *)
Theorem load_error_report (w : World) (fileName : string)
    (good : list (list string)) (record : list string) (rest : list (list string)) :
  OpenErr w ("schemas/" +:+ fileName) = None →
  ReadAll w ("schemas/" +:+ fileName) = (good ++ record :: rest, None) →
  Forall validRow good →
  (∀ e, (2 <= length record)%nat → (widthOf record).2 = Some e →
     getSchema w fileName
     = mkIO [Open ("schemas/" +:+ fileName);
             Printf "Found invalid integer value for width in CSV file %s, record %d: '%s'"
               [FString fileName; FInt (Z.of_nat (length good) + 1);
                FString (col record 1)]]
         (Done ([], Some e))
     ∧ ∃ kind, e = NumError "Atoi" (strings.TrimSpace (col record 1)) kind)
  ∧ ((3 <= length record)%nat → ¬ badWidth record → badType record →
     let errMsg :=
       "Found invalid value for data type in CSV file " +:+ fileName +:+
       ", record " +:+ strconv.Itoa (Z.of_nat (length good) + 1) +:+
       ": '" +:+ col record 2 +:+ "'" in
     getSchema w fileName
     = mkIO [Open ("schemas/" +:+ fileName); Printf errMsg []]
         (Done ([], Some (errorString errMsg)))).
Proof.
  intros Hopen Hread Hgood. split.
  - intros e Hlen He. split.
    + eapply getSchema_stops_at; [done..|]. by apply getSchema_range_badWidth_report.
    + unfold widthOf, CSV_WIDTH_INDEX in He.
      destruct (strconv.Atoi _) as [n o] eqn:Hn. simpl in He. subst o.
      by apply Atoi_error in Hn.
  - intros Hlen Hw Ht errMsg.
    eapply getSchema_stops_at; [done..|]. by apply getSchema_range_badType_report.
Qed.

(** the theorem at a file whose second row has the width [x], and at one
    whose second row has the type [FLOAT] *)
Lemma load_error_report_witness :
  getSchema (oneFile [ ["id"; "3"; "INTEGER"]; ["flag"; " x"] ] []) "s.csv"
  = mkIO [Open "schemas/s.csv";
          Printf "Found invalid integer value for width in CSV file %s, record %d: '%s'"
            [FString "s.csv"; FInt 2; FString " x"]]
      (Done ([], Some (NumError "Atoi" "x" ErrSyntax)))
  ∧ getSchema (oneFile [ ["id"; "3"; "INTEGER"]; ["flag"; "1"; "FLOAT"] ] []) "s.csv"
    = mkIO [Open "schemas/s.csv";
            Printf "Found invalid value for data type in CSV file s.csv, record 2: 'FLOAT'" []]
        (Done ([], Some (errorString
           "Found invalid value for data type in CSV file s.csv, record 2: 'FLOAT'"))).
Proof.
  split.
  - apply (load_error_report (oneFile [ ["id"; "3"; "INTEGER"]; ["flag"; " x"] ] [])
             "s.csv" [ ["id"; "3"; "INTEGER"] ] ["flag"; " x"] []);
      [reflexivity|reflexivity|compute_done|simpl; lia|reflexivity].
  - apply (load_error_report (oneFile [ ["id"; "3"; "INTEGER"]; ["flag"; "1"; "FLOAT"] ] [])
             "s.csv" [ ["id"; "3"; "INTEGER"] ] ["flag"; "1"; "FLOAT"] []);
      [reflexivity|reflexivity|compute_done|simpl; lia|compute_done|compute_done].
Defined.

(** ** The events of each function *)

Lemma posts_app tr1 tr2 : posts (tr1 ++ tr2) = posts tr1 ++ posts tr2.
Proof. apply omap_app. Qed.

Lemma posts_Printf tr : Forall isPrintf tr → posts tr = [].
Proof.
  induction 1 as [|ev tr Hev _ IH]; [done|].
  by destruct ev.
Qed.

Lemma posts_no_Post tr :
  (∀ ev, ev ∈ tr → isPrintf ev ∨ ∃ name, ev = Open name) → posts tr = [].
Proof.
  induction tr as [|ev tr IH]; intros Hall; [done|].
  assert (Htl : posts tr = []). { apply IH. intros ? ?. apply Hall. by right. }
  destruct (Hall ev) as [Hev|[name ->]]; [by left| |done].
  by destruct ev.
Qed.

(** the loop of the loader only logs *)
Lemma getSchema_range_events fileName records :
  ∀ i fields, Forall isPrintf (trace (getSchema_range fileName i records fields)).
Proof.
  induction records as [|record records IH]; intros i fields; [constructor|].
  cbn [getSchema_range].
  unfold CSV_WIDTH_INDEX, CSV_DATA_TYPE_INDEX, CSV_NAME_INDEX.
  destruct (record !! 1%nat) as [widthCol|] eqn:Hc1;
    [|rewrite (index_None _ _ Hc1), bind_raise; constructor].
  assert (Hl1 : (1 < length record)%nat) by (by eapply lookup_lt_Some).
  rewrite !(index_lookup _ 1), bind_mret by lia.
  destruct (strconv.Atoi _) as [width [e|]].
  { rewrite bind_mret, bind_Printf. io_value. by repeat constructor. }
  destruct (record !! 2%nat) as [dataType|] eqn:Hc2;
    [|rewrite (index_None _ _ Hc2), bind_raise; constructor].
  assert (Hl2 : (2 < length record)%nat) by (by eapply lookup_lt_Some).
  rewrite !(index_lookup _ 2), !(index_lookup _ 0), !bind_mret by lia.
  destruct (_ && _); [|apply IH].
  rewrite bind_Printf. io_value. by repeat constructor.
Qed.

(** [getSchema] opens the schema file, and logs *)
Lemma getSchema_events w fileName :
  ∃ tr, trace (getSchema w fileName) = Open ("schemas/" +:+ fileName) :: tr
        ∧ Forall isPrintf tr.
Proof.
  unfold getSchema. rewrite bind_Open.
  destruct (OpenErr w _) as [e|].
  { rewrite bind_Printf. io_value. eexists. split; [done|]. by repeat constructor. }
  destruct (ReadAll w _) as [records [e|]].
  { rewrite bind_Printf. io_value. eexists. split; [done|]. by repeat constructor. }
  pose proof (getSchema_range_events fileName records 0
                (replicate (length records) zeroField)) as Hloop.
  destruct (getSchema_range fileName 0 records _) as [tr [[fields|r]|p]];
    rewrite ?bind_Done, ?bind_Panicked; io_value; rewrite ?app_nil_r;
    by eexists.
Qed.

(** [getData] opens the data file, and logs; it never panics, and gives
    what the scanner gave *)
Lemma getData_run w fileName :
  ∃ tr, getData w fileName
        = mkIO (Open ("data/" +:+ fileName) :: tr)
            (Done (match OpenErr w ("data/" +:+ fileName) with
                   | Some e => ([], Some e)
                   | None => Scan w ("data/" +:+ fileName)
                   end))
        ∧ Forall isPrintf tr.
Proof.
  unfold getData. rewrite bind_Open.
  destruct (OpenErr w _) as [e|].
  { rewrite bind_Printf. io_value. eexists. split; [done|]. by repeat constructor. }
  destruct (Scan w _) as [records [e|]].
  { rewrite bind_Printf. io_value. eexists. split; [done|]. by repeat constructor. }
  io_value. eexists. split; [done|]. constructor.
Qed.

(** the loop of the decoder only logs *)
Lemma getRecordJson_range_events dataRecord schema :
  ∀ startIndex data,
  Forall isPrintf (trace (getRecordJson_range dataRecord schema startIndex data)).
Proof.
  induction schema as [|field schema IH]; intros startIndex data; [constructor|].
  cbn [getRecordJson_range]. unfold sliceIO.
  destruct (slice _ _ _) as [raw|];
    [rewrite bind_mret|rewrite bind_raise; constructor].
  repeat case_decide; repeat case_match; rewrite ?bind_Printf; try apply IH;
    io_value; by repeat constructor.
Qed.

Lemma getRecordJson_events dataRecord schema :
  Forall isPrintf (trace (getRecordJson dataRecord schema)).
Proof.
  unfold getRecordJson.
  pose proof (getRecordJson_range_events dataRecord schema 0 ∅) as Hloop.
  destruct (getRecordJson_range dataRecord schema 0 ∅) as [tr [[data|r]|p]];
    rewrite ?bind_Done, ?bind_Panicked; cbn [trace outcome] in *.
  - destruct (json.Marshal data) as [js [e|]]; rewrite ?bind_Printf; io_value;
      rewrite ?app_nil_r; [|done].
    apply Forall_app. split; [done|]. by repeat constructor.
  - io_value. by rewrite app_nil_r.
  - done.
Qed.

(** ** The sink *)

Lemma bind_assoc {A B C} (m : IO A) (f : A → IO B) (g : B → IO C) :
  (m ≫= f) ≫= g = m ≫= (λ a, f a ≫= g).
Proof.
  destruct m as [tr [a|p]]; [|done]. rewrite !bind_Done.
  destruct (f a) as [tr' [b|p']]; cbn [trace outcome]; [|done].
  rewrite !bind_Done. cbn [trace outcome]. by rewrite app_assoc.
Qed.

Lemma postRecord_run (w : World) (jsonRecord : string) :
  ∃ report,
    postRecord w jsonRecord
    = mkIO [Printf "POSTing JSON data to API: %s" [FString jsonRecord];
            Post API_URL "application/json" jsonRecord;
            report] (Done tt)
    ∧ isPrintf report
    ∧ posts (trace (postRecord w jsonRecord)) = [jsonRecord].
Proof.
  unfold postRecord, http.Post. rewrite bind_Printf, bind_assoc, bind_emit, bind_mret.
  destruct (Respond w jsonRecord) as [resp [e|]]; [|destruct (BodyErr resp)];
    by eexists.
Qed.

(** X4. [postRecord] never panics and does not depend on what the
    endpoint answers: whether the request fails, the body of the response
    cannot be read, or a response of any status code comes back, it
    writes one line of log, sends exactly one POST request, to [API_URL],
    with the JSON content type and the record as body, writes one more
    line of log, and returns. *)
Theorem postRecord_posts_once (w : World) (jsonRecord : string) :
  ∃ report,
    postRecord w jsonRecord
    = mkIO [Printf "POSTing JSON data to API: %s" [FString jsonRecord];
            Post API_URL "application/json" jsonRecord;
            report] (Done tt)
    ∧ isPrintf report
    ∧ posts (trace (postRecord w jsonRecord)) = [jsonRecord].
Proof. apply postRecord_run. Qed.

(** ** The loop over the lines of a data file *)

Lemma getRecordJson_posts dataRecord schema : posts (trace (getRecordJson dataRecord schema)) = [].
Proof. apply posts_Printf, getRecordJson_events. Qed.

(** a panic of [getRecordJson] is the slice out of range *)
Lemma getRecordJson_Panicked dataRecord schema tr p :
  getRecordJson dataRecord schema = mkIO tr (Panicked p) → p = SliceBoundsOutOfRange.
Proof.
  unfold getRecordJson.
  destruct (getRecordJson_range dataRecord schema 0 ∅) as [tr0 [[data|r]|p0]] eqn:Hloop.
  - rewrite bind_Done. by destruct (json.Marshal data) as [? [?|]].
  - by rewrite bind_Done.
  - rewrite bind_Panicked. intros [= _ <-]. by eapply getRecordJson_range_Panicked.
Qed.

Section main_records.
Variables (w : World) (schema : list Field).

(** one turn of the loop, by what [getRecordJson] did *)
Lemma main_records_posted dataRecord dataRecords tr jsonData :
  getRecordJson dataRecord schema = mkIO tr (Done (jsonData, None)) →
  main_records w schema (dataRecord :: dataRecords)
  = after (tr ++ trace (postRecord w jsonData)) (main_records w schema dataRecords).
Proof.
  intros Hrun. cbn [main_records]. rewrite Hrun, bind_Done_after.
  destruct (postRecord_run w jsonData) as (report & -> & _).
  rewrite bind_Done_after. unfold after. cbn [trace outcome]. by rewrite app_assoc.
Qed.

Lemma main_records_skipped dataRecord dataRecords tr jsonData e :
  getRecordJson dataRecord schema = mkIO tr (Done (jsonData, Some e)) →
  main_records w schema (dataRecord :: dataRecords)
  = after (tr ++ [Printf "Skipping data record '%s'" [FString dataRecord]])
      (main_records w schema dataRecords).
Proof.
  intros Hrun. cbn [main_records]. rewrite Hrun, bind_Done_after, bind_Printf.
  unfold after. cbn [trace outcome]. by rewrite app_assoc.
Qed.

Lemma main_records_panicked dataRecord dataRecords tr p :
  getRecordJson dataRecord schema = mkIO tr (Panicked p) →
  main_records w schema (dataRecord :: dataRecords) = mkIO tr (Panicked p).
Proof. intros Hrun. cbn [main_records]. by rewrite Hrun. Qed.

Lemma main_records_app before later :
  main_records w schema (before ++ later)
  = main_records w schema before ≫= λ _, main_records w schema later.
Proof.
  induction before as [|dataRecord before IH];
    [cbn [main_records app]; by rewrite bind_mret|].
  rewrite <- app_comm_cons. cbn [main_records]. rewrite bind_assoc.
  apply bind_ext. intros [recordJson [e|]]; rewrite bind_assoc; by rewrite IH.
Qed.

Lemma main_records_returns (dataRecords : list string) :
  Forall (returns schema) dataRecords →
  outcome (main_records w schema dataRecords) = Done tt
  ∧ posts (trace (main_records w schema dataRecords)) = omap (jsonOf schema) dataRecords
  ∧ ∀ dataRecord, dataRecord ∈ dataRecords → jsonOf schema dataRecord = None →
      Printf "Skipping data record '%s'" [FString dataRecord]
      ∈ trace (main_records w schema dataRecords).
Proof.
  induction 1 as [|dataRecord dataRecords [r Hr] _ (IHo & IHp & IHs)].
  { split; [done|]. split; [done|]. intros ? Hin. by apply elem_of_nil in Hin. }
  destruct (getRecordJson dataRecord schema) as [tr o] eqn:Hrun.
  cbn [outcome] in Hr. subst o.
  assert (Hjson : jsonOf schema dataRecord
                  = match r with (jsonData, None) => Some jsonData | _ => None end).
  { unfold jsonOf. by rewrite Hrun. }
  assert (Htr : posts tr = []).
  { pose proof (getRecordJson_posts dataRecord schema) as Hp. by rewrite Hrun in Hp. }
  destruct r as [jsonData [e|]].
  - rewrite (main_records_skipped _ _ _ _ _ Hrun). unfold after. cbn [trace outcome].
    split; [done|]. split.
    + rewrite !posts_app, Htr, IHp. cbn [omap list_omap]. by rewrite Hjson.
    + intros line Hin Hnone. rewrite !elem_of_app.
      apply elem_of_cons in Hin as [->|Hin]; [|right; by apply IHs].
      left. right. by apply list_elem_of_singleton.
  - rewrite (main_records_posted _ _ _ _ Hrun). unfold after. cbn [trace outcome].
    destruct (postRecord_run w jsonData) as (report & _ & _ & Hpost).
    split; [done|]. split.
    + rewrite !posts_app, Htr, Hpost, IHp. cbn [omap list_omap]. by rewrite Hjson.
    + intros line Hin Hnone. rewrite !elem_of_app.
      apply elem_of_cons in Hin as [->|Hin]; [congruence|]. right. by apply IHs.
Qed.

(** X5. Where [getRecordJson] returns on every line of the data file,
    the loop over the lines ends normally; the bodies it posts are the
    JSON texts of the lines that decode, each once and in line order; and
    every line that does not decode is named in a line of log. *)
Theorem main_records_posts (dataRecords : list string) :
  Forall (returns schema) dataRecords →
  outcome (main_records w schema dataRecords) = Done tt
  ∧ posts (trace (main_records w schema dataRecords)) = omap (jsonOf schema) dataRecords
  ∧ ∀ dataRecord, dataRecord ∈ dataRecords → jsonOf schema dataRecord = None →
      Printf "Skipping data record '%s'" [FString dataRecord]
      ∈ trace (main_records w schema dataRecords).
Proof. apply main_records_returns. Qed.

(** X6. A line on which [getRecordJson] panics ends the loop: the
    panic is the slice out of range, the bodies posted are those of the
    lines before it, and no line after it is decoded, logged or posted. *)
Theorem main_records_stops (before : list string) (dataRecord : string)
    (later : list string) (tr : list event) (p : panic) :
  Forall (returns schema) before →
  getRecordJson dataRecord schema = mkIO tr (Panicked p) →
  main_records w schema (before ++ dataRecord :: later)
  = mkIO (trace (main_records w schema before) ++ tr) (Panicked SliceBoundsOutOfRange)
  ∧ posts (trace (main_records w schema (before ++ dataRecord :: later)))
    = omap (jsonOf schema) before.
Proof.
  intros Hbefore Hrun.
  destruct (main_records_returns before Hbefore) as (Ho & Hp & _).
  pose proof (getRecordJson_Panicked _ _ _ _ Hrun) as ->.
  assert (Heq : main_records w schema (before ++ dataRecord :: later)
    = mkIO (trace (main_records w schema before) ++ tr) (Panicked SliceBoundsOutOfRange)).
  { rewrite main_records_app, (main_records_panicked _ _ _ _ Hrun).
    destruct (main_records w schema before) as [tr0 o]. cbn [outcome] in Ho. by subst o. }
  split; [done|]. rewrite Heq. cbn [trace]. rewrite posts_app, Hp.
  pose proof (getRecordJson_posts dataRecord schema) as Htr. rewrite Hrun in Htr.
  cbn [trace] in Htr. by rewrite Htr, app_nil_r.
Qed.
End main_records.

(** the theorem at the example schema, for two lines that decode around
    one whose flag does not parse *)
Lemma main_records_posts_witness :
  let w := oneFile idFlagRows [] in
  let dataRecords := ["042T"; "007X"; "  1F"] in
  outcome (main_records w idFlag dataRecords) = Done tt
  ∧ posts (trace (main_records w idFlag dataRecords)) = omap (jsonOf idFlag) dataRecords
  ∧ ∀ dataRecord, dataRecord ∈ dataRecords → jsonOf idFlag dataRecord = None →
      Printf "Skipping data record '%s'" [FString dataRecord]
      ∈ trace (main_records w idFlag dataRecords).
Proof.
  apply (main_records_posts (oneFile idFlagRows []) idFlag ["042T"; "007X"; "  1F"]).
  repeat (apply Forall_cons_2; [by eexists|]). apply Forall_nil_2.
Defined.

(** the theorem at the example schema, for a short line between two
    lines that decode *)
Lemma main_records_stops_witness :
  let w := oneFile idFlagRows [] in
  main_records w idFlag (["042T"] ++ "04" :: ["  1F"])
  = mkIO (trace (main_records w idFlag ["042T"]) ++ []) (Panicked SliceBoundsOutOfRange)
  ∧ posts (trace (main_records w idFlag (["042T"] ++ "04" :: ["  1F"])))
    = omap (jsonOf idFlag) ["042T"].
Proof.
  apply (main_records_stops (oneFile idFlagRows []) idFlag ["042T"] "04" ["  1F"] []
           SliceBoundsOutOfRange).
  - apply Forall_cons_2; [by eexists|]. apply Forall_nil_2.
  - reflexivity.
Defined.

(** ** One schema file *)

Lemma dataFileNameOf_split (fileName : string) :
  (("."%char ∉ bytes fileName) ∧ dataFileNameOf fileName = mret None)
  ∨ ∃ base ext,
      fileName = base +:+ String "." ext ∧ ("."%char ∉ bytes ext)
      ∧ dataFileNameOf fileName = mret (Some (base +:+ ".txt")).
Proof.
  destruct (decide ("."%char ∈ bytes fileName)) as [Hin|Hno].
  - right. apply list_elem_of_split_r in Hin as (l1 & l2 & Hsplit & Hlast).
    exists (of_bytes l1), (of_bytes l2).
    assert (Hname : fileName = of_bytes l1 +:+ String "." (of_bytes l2)).
    { rewrite <- (of_bytes_bytes fileName), Hsplit.
      rewrite <- (of_bytes_bytes (_ +:+ _)), bytes_app. simpl.
      by rewrite !bytes_of_bytes. }
    assert (Hext : "."%char ∉ bytes (of_bytes l2)) by (by rewrite bytes_of_bytes).
    split; [done|]. split; [done|]. rewrite Hname at 1. by apply dataFileNameOf_dot.
  - left. split; [done|]. by apply dataFileNameOf_no_dot.
Qed.

(** X7. The name of the data file can always be constructed: the slice
    of the file name is never out of range. A file name without a dot
    gives none; any other file name splits at its last dot and gives what
    is before that dot followed by [.txt]. *)
Theorem dataFileNameOf_total (fileName : string) :
  (("."%char ∉ bytes fileName) ∧ dataFileNameOf fileName = mret None)
  ∨ ∃ base ext,
      fileName = base +:+ String "." ext ∧ ("."%char ∉ bytes ext)
      ∧ dataFileNameOf fileName = mret (Some (base +:+ ".txt")).
Proof. apply dataFileNameOf_split. Qed.

(** X8. A schema file that cannot be loaded is skipped. If
    [getSchema] returns an error, whatever its cause, the turn of the
    coordinator adds one line of log that names the file and ends
    normally, having opened the schema file only and posted nothing. A
    file that cannot be opened, or that the csv reader rejects, is such a
    cause, with one more line of log that carries the error. *)
Theorem schema_failure_skips_file (w : World) (fileName : string) :
  (∀ tr schema e,
     getSchema w fileName = mkIO tr (Done (schema, Some e)) →
     main_file w fileName
     = mkIO (tr ++ [Printf "Skipping schema file %s" [FString fileName]]) (Done tt)
     ∧ posts (trace (main_file w fileName)) = []
     ∧ ∀ name, Open name ∈ trace (main_file w fileName) → name = "schemas/" +:+ fileName)
  ∧ (∀ e, OpenErr w ("schemas/" +:+ fileName) = Some e →
       getSchema w fileName
       = mkIO [Open ("schemas/" +:+ fileName);
               Printf "Got error opening CSV file %s: %+v" [FString fileName; FError e]]
           (Done ([], Some e)))
  ∧ (∀ records e,
       OpenErr w ("schemas/" +:+ fileName) = None →
       ReadAll w ("schemas/" +:+ fileName) = (records, Some e) →
       getSchema w fileName
       = mkIO [Open ("schemas/" +:+ fileName);
               Printf "Got error parsing CSV file %s: %+v" [FString fileName; FError e]]
           (Done ([], Some e))).
Proof.
  split; [|split].
  - intros tr schema e Hload.
    assert (Hturn : main_file w fileName
      = mkIO (tr ++ [Printf "Skipping schema file %s" [FString fileName]]) (Done tt)).
    { unfold main_file. by rewrite Hload, bind_Done_after. }
    split; [done|]. rewrite Hturn. cbn [trace].
    destruct (getSchema_events w fileName) as (tr' & Htr & Hlog).
    rewrite Hload in Htr. cbn [trace] in Htr. subst tr. split.
    + rewrite posts_app. cbn [posts omap list_omap]. by rewrite posts_Printf.
    + intros name. rewrite elem_of_app, elem_of_cons, list_elem_of_singleton.
      intros [[[= ->]|Hin]|[=]]; [done|].
      by apply (proj1 (Forall_forall _ _) Hlog) in Hin.
  - intros e Hopen. unfold getSchema. by rewrite bind_Open, Hopen.
  - intros records e Hopen Hread. unfold getSchema. by rewrite bind_Open, Hopen, Hread.
Qed.

(** the theorem at a world whose schema file does not open *)
Lemma schema_failure_skips_file_witness :
  let w := {| ReadDir := λ _, (["s.csv"], None);
              OpenErr := λ _, Some (ioError "no such file");
              ReadAll := λ _, ([], None);
              Scan := λ _, ([], None);
              Respond := Respond (oneFile [] []) |} in
  main_file w "s.csv"
  = mkIO ([Open "schemas/s.csv";
           Printf "Got error opening CSV file %s: %+v"
             [FString "s.csv"; FError (ioError "no such file")]]
          ++ [Printf "Skipping schema file %s" [FString "s.csv"]]) (Done tt).
Proof.
  intros w. destruct (schema_failure_skips_file w "s.csv") as (Hskip & Hopen & _).
  apply (Hskip _ [] (ioError "no such file")). by apply Hopen.
Defined.

(** X9. A data file that cannot be read is skipped whole. With the
    schema loaded and the data file named, if the data file does not open,
    or the scanner ends with an error (after any number of lines), the
    turn of the coordinator logs the error, logs that it skips (under the
    name of the schema file), and ends normally: none of the lines that
    were read is decoded or posted. *)
Theorem data_failure_skips_file (w : World) (fileName base ext : string)
    (tr : list event) (schema : list Field) (e : error) :
  fileName = base +:+ String "." ext → "."%char ∉ bytes ext →
  getSchema w fileName = mkIO tr (Done (schema, None)) →
  OpenErr w ("data/" +:+ base +:+ ".txt") = Some e
  ∨ (OpenErr w ("data/" +:+ base +:+ ".txt") = None
     ∧ (Scan w ("data/" +:+ base +:+ ".txt")).2 = Some e) →
  ∃ format,
    main_file w fileName
    = mkIO (tr ++ [Open ("data/" +:+ base +:+ ".txt");
                   Printf format [FString (base +:+ ".txt"); FError e];
                   Printf "Skipping data file %s" [FString fileName]]) (Done tt)
    ∧ posts (trace (main_file w fileName)) = [].
Proof.
  intros Hname Hext Hload Hfail.
  pose proof (dataFileNameOf_dot base ext Hext) as Hpair. rewrite <- Hname in Hpair.
  assert (Htr : posts tr = []).
  { destruct (getSchema_events w fileName) as (tr' & Heq & Hlog).
    rewrite Hload in Heq. cbn [trace] in Heq. subst tr.
    change (posts tr' = []). by apply posts_Printf. }
  assert (Hgo : ∀ format lines,
    getData w (base +:+ ".txt")
    = mkIO [Open ("data/" +:+ base +:+ ".txt");
            Printf format [FString (base +:+ ".txt"); FError e]] (Done (lines, Some e)) →
    main_file w fileName
    = mkIO (tr ++ [Open ("data/" +:+ base +:+ ".txt");
                   Printf format [FString (base +:+ ".txt"); FError e];
                   Printf "Skipping data file %s" [FString fileName]]) (Done tt)
    ∧ posts (trace (main_file w fileName)) = []).
  { intros format lines Hdata.
    assert (Hturn : main_file w fileName
      = mkIO (tr ++ [Open ("data/" +:+ base +:+ ".txt");
                     Printf format [FString (base +:+ ".txt"); FError e];
                     Printf "Skipping data file %s" [FString fileName]]) (Done tt)).
    { unfold main_file.
      rewrite Hload, bind_Done_after, Hpair, bind_mret, Hdata, bind_Done_after.
      unfold after, log.Printf, emit. cbn [trace outcome app].
      done. }
    split; [done|]. rewrite Hturn. cbn [trace]. by rewrite posts_app, Htr. }
  destruct Hfail as [Hopen|[Hopen Hscan]].
  - eexists. apply (Hgo _ []). unfold getData. by rewrite bind_Open, Hopen.
  - destruct (Scan w ("data/" +:+ base +:+ ".txt")) as [lines o] eqn:Hlines.
    simpl in Hscan. subst o. eexists. apply (Hgo _ lines).
    unfold getData. by rewrite bind_Open, Hopen, Hlines.
Qed.

(** the theorem at a world whose data file breaks off after two lines *)
Lemma data_failure_skips_file_witness :
  let w := {| ReadDir := λ _, (["s.csv"], None);
              OpenErr := λ _, None;
              ReadAll := λ _, (idFlagRows, None);
              Scan := λ _, (["042T"; "  1F"], Some (ioError "token too long"));
              Respond := Respond (oneFile [] []) |} in
  ∃ format,
    main_file w "s.csv"
    = mkIO ([Open "schemas/s.csv"]
            ++ [Open "data/s.txt";
                Printf format [FString "s.txt"; FError (ioError "token too long")];
                Printf "Skipping data file %s" [FString "s.csv"]]) (Done tt)
    ∧ posts (trace (main_file w "s.csv")) = [].
Proof.
  intros w.
  apply (data_failure_skips_file w "s.csv" "s" "csv" [Open "schemas/s.csv"] idFlag
           (ioError "token too long")).
  - reflexivity.
  - compute_done.
  - reflexivity.
  - right. split; reflexivity.
Defined.

(** ** The run *)

Lemma isPrintf_fileEvent fileName ev : isPrintf ev → fileEvent fileName ev.
Proof. by destruct ev. Qed.

Lemma main_records_events w schema dataRecords ev fileName :
  ev ∈ trace (main_records w schema dataRecords) → fileEvent fileName ev.
Proof.
  induction dataRecords as [|dataRecord dataRecords IH]; cbn [main_records].
  { intros Hin. by apply elem_of_nil in Hin. }
  intros Hin. apply elem_of_trace_bind in Hin as [Hin|[[recordJson [e|]] Hin]].
  - apply isPrintf_fileEvent.
    by apply (proj1 (Forall_forall _ _) (getRecordJson_events dataRecord schema)).
  - rewrite bind_Printf, elem_of_trace_after, list_elem_of_singleton in Hin.
    destruct Hin as [->|Hin]; [done|by apply IH].
  - apply elem_of_trace_bind in Hin as [Hin|[_ Hin]]; [|by apply IH].
    destruct (postRecord_run w recordJson) as (report & Hpost & Hreport & _).
    rewrite Hpost in Hin. cbn [trace] in Hin.
    rewrite !elem_of_cons, elem_of_nil in Hin.
    destruct Hin as [->|[->|[->|[]]]]; [done|done|by apply isPrintf_fileEvent].
Qed.

Lemma main_file_events w fileName ev :
  ev ∈ trace (main_file w fileName) → fileEvent fileName ev.
Proof.
  unfold main_file. intros Hin.
  apply elem_of_trace_bind in Hin as [Hin|[[schema [e|]] Hin]].
  - destruct (getSchema_events w fileName) as (tr & Htr & Hlog). rewrite Htr in Hin.
    apply elem_of_cons in Hin as [->|Hin]; [by left|].
    by apply isPrintf_fileEvent, (proj1 (Forall_forall _ _) Hlog).
  - by apply list_elem_of_singleton in Hin as ->.
  - destruct (dataFileNameOf_split fileName) as [[_ Hpair]|(base & ext & Hname & Hext & Hpair)];
      rewrite Hpair, bind_mret in Hin.
    { by apply list_elem_of_singleton in Hin as ->. }
    apply elem_of_trace_bind in Hin as [Hin|[[dataRecords [e|]] Hin]].
    + destruct (getData_run w (base +:+ ".txt")) as (tr & Hdata & Hlog).
      rewrite Hdata in Hin. cbn [trace] in Hin.
      apply elem_of_cons in Hin as [->|Hin]; [right; by exists base, ext|].
      by apply isPrintf_fileEvent, (proj1 (Forall_forall _ _) Hlog).
    + by apply list_elem_of_singleton in Hin as ->.
    + by eapply main_records_events.
Qed.

Lemma main_range_app_eq w before later :
  main_range w (before ++ later) = main_range w before ≫= λ _, main_range w later.
Proof.
  induction before as [|fileName before IH];
    [cbn [main_range app]; by rewrite bind_mret|].
  rewrite <- app_comm_cons. cbn [main_range]. rewrite bind_assoc.
  apply bind_ext. intros _. exact IH.
Qed.

Lemma main_range_events w schemaFileNames ev :
  ev ∈ trace (main_range w schemaFileNames) →
  ∃ fileName, fileName ∈ schemaFileNames ∧ fileEvent fileName ev.
Proof.
  induction schemaFileNames as [|fileName rest IH]; cbn [main_range].
  { intros Hin. by apply elem_of_nil in Hin. }
  intros Hin. apply elem_of_trace_bind in Hin as [Hin|[_ Hin]].
  - exists fileName. split; [by left|]. by apply main_file_events in Hin.
  - destruct (IH Hin) as (f & Hf & Hev). exists f. split; [by right|done].
Qed.


(** X11. A panic in the turn for one file ends the run: with the
    files before it processed without panic, the run ends in that panic,
    right after the events of that turn; the files after it are never
    opened. *)
Theorem panic_ends_the_run (w : World) (before : list string) (fileName : string)
    (later : list string) (tr tr' : list event) (p : panic) :
  ReadDir w "schemas" = (before ++ fileName :: later, None) →
  main_range w before = mkIO tr (Done tt) →
  main_file w fileName = mkIO tr' (Panicked p) →
  main w = mkIO (tr ++ tr') (Panicked p).
Proof.
  intros Hdir Hbefore Hturn. unfold main, getSchemaFilenames.
  rewrite Hdir, bind_mret, main_range_app_eq, Hbefore. cbn [main_range].
  by rewrite Hturn.
Qed.

(** the theorem at a listing of three files, all with the rows of the
    example, where the data file of the second has a short line *)
Lemma panic_ends_the_run_witness :
  let w := {| ReadDir := λ _, (["a.csv"; "b.csv"; "c.csv"], None);
              OpenErr := λ _, None;
              ReadAll := λ _, (idFlagRows, None);
              Scan := λ name, (if decide (name = "data/b.txt") then ["04"] else [], None);
              Respond := Respond (oneFile [] []) |} in
  main w = mkIO ([Open "schemas/a.csv"; Open "data/a.txt"]
                 ++ [Open "schemas/b.csv"; Open "data/b.txt"])
             (Panicked SliceBoundsOutOfRange).
Proof.
  intros w. apply (panic_ends_the_run w ["a.csv"] "b.csv" ["c.csv"]); reflexivity.
Defined.

(** X12. What a run never does. Every file a run opens is a file of
    the listing under [schemas/], or under [data/] the file paired with
    one of them (its name up to the last dot, and [.txt]); every request
    is a POST to [API_URL] with the JSON content type; and the line that
    [log.Panic] writes appears only if the directory could not be
    listed. *)
Theorem run_events (w : World) (ev : event) :
  ev ∈ trace (main w) →
  match ev with
  | Printf _ _ => True
  | Print _ => (ReadDir w "schemas").2 ≠ None
  | Open _ | Post _ _ _ =>
      ∃ fileName, fileName ∈ (ReadDir w "schemas").1 ∧ fileEvent fileName ev
  end.
Proof.
  unfold main, getSchemaFilenames.
  destruct (ReadDir w "schemas") as [files [e|]]; cbn [fst snd].
  - cbv [mbind IO_bind mret IO_ret log.Printf log.Panic emit raise].
    cbn [trace outcome app]. rewrite !elem_of_cons, elem_of_nil.
    intros [->|[->|[]]]; done.
  - rewrite bind_mret. intros Hin.
    destruct (main_range_events _ _ _ Hin) as (fileName & Hf & Hev).
    destruct ev; [done|done|by exists fileName..].
Qed.

(** the theorem at the run of the example, for its POST *)
Lemma run_events_witness :
  let w := oneFile idFlagRows ["042T"] in
  ∃ fileName, fileName ∈ (ReadDir w "schemas").1
    ∧ fileEvent fileName (Post API_URL "application/json" (default EmptyString (jsonOf idFlag "042T"))).
Proof.
  intros w.
  apply (run_events w (Post API_URL "application/json"
                         (default EmptyString (jsonOf idFlag "042T")))).
  compute_done.
Defined.

Lemma main_range_Done w schemaFileNames :
  (∀ fileName, fileName ∈ schemaFileNames → outcome (main_file w fileName) = Done tt) →
  outcome (main_range w schemaFileNames) = Done tt.
Proof.
  induction schemaFileNames as [|fileName rest IH]; intros Hall; [done|].
  cbn [main_range].
  pose proof (Hall fileName ltac:(by left)) as Hturn.
  destruct (main_file w fileName) as [tr o]. cbn [outcome] in Hturn. subst o.
  rewrite bind_Done. cbn [outcome]. apply IH. intros f Hf. apply Hall. by right.
Qed.

(** the turn for a file whose rows have three columns and no negative
    width, and whose data lines are long enough, ends normally *)
Lemma main_file_Done w fileName :
  Forall (λ record, (3 <= length record)%nat
                    ∧ (¬ badWidth record → 0 <= (widthOf record).1))
    (rowsOf w fileName) →
  (∀ base ext, fileName = base +:+ String "." ext → "."%char ∉ bytes ext →
     Forall (λ line, go_string line ∧ totalWidth (fieldOf <$> rowsOf w fileName) <= len line)
       (Scan w ("data/" +:+ base +:+ ".txt")).1) →
  outcome (main_file w fileName) = Done tt.
Proof.
  intros Hrows Hlines.
  destruct (getSchema_returns w fileName) as [[schema err] Hr].
  { eapply Forall_impl; [exact Hrows|]. by intros ? [? _]. }
  unfold main_file.
  destruct (getSchema w fileName) as [tr o] eqn:Hload. cbn [outcome] in Hr. subst o.
  rewrite bind_Done_after. destruct err as [e|]; [done|].
  destruct (getSchema_Done_inv _ _ _ _ Hload) as [Hopen Hread].
  unfold rowsOf in *. destruct (ReadAll w _) as [records o] eqn:Hrecords.
  simpl in Hread. subst o. cbn [fst] in *.
  destruct (getSchema_success w fileName records Hopen Hrecords tr schema Hload)
    as [Hvalid ->].
  assert (Hwidths : Forall (λ field, 0 <= Width field) (fieldOf <$> records)).
  { apply Forall_fmap, Forall_forall. intros record Hin. simpl.
    pose proof (proj1 (Forall_forall _ _) Hrows record Hin) as [_ Hpos].
    pose proof (proj1 (Forall_forall _ _) Hvalid record Hin) as (_ & Hw & _). auto. }
  destruct (dataFileNameOf_split fileName) as [[_ Hpair]|(base & ext & Hname & Hext & Hpair)];
    rewrite Hpair, bind_mret; [done|].
  destruct (getData_run w (base +:+ ".txt")) as (tr' & Hdata & _).
  rewrite Hdata, bind_Done_after. cbn [outcome after].
  destruct (OpenErr w ("data/" +:+ base +:+ ".txt")) as [e|]; [done|].
  specialize (Hlines base ext Hname Hext).
  destruct (Scan w ("data/" +:+ base +:+ ".txt")) as [lines [e|]]; [done|].
  cbn [fst] in Hlines.
  apply main_records_returns. eapply Forall_impl; [exact Hlines|].
  intros line [Hgo Hlen]. by apply getRecordJson_no_panic.
Qed.

(** X13. A run over well-formed files ends normally. If the directory
    is listed, every row of every schema file has at least three columns
    and no negative width, and every line of every paired data file is at
    least as long as the total width of the fields its schema file
    describes, then [main] does not panic: whatever else fails (a file
    that does not open, a width or a type that is rejected, a value that
    does not parse, a request that fails) is logged and skipped. *)
Theorem well_formed_run_ends_normally (w : World) (files : list string) :
  ReadDir w "schemas" = (files, None) →
  (∀ fileName, fileName ∈ files →
     Forall (λ record, (3 <= length record)%nat
                       ∧ (¬ badWidth record → 0 <= (widthOf record).1))
       (rowsOf w fileName)) →
  (∀ fileName base ext,
     fileName ∈ files → fileName = base +:+ String "." ext → "."%char ∉ bytes ext →
     Forall (λ line, go_string line ∧ totalWidth (fieldOf <$> rowsOf w fileName) <= len line)
       (Scan w ("data/" +:+ base +:+ ".txt")).1) →
  outcome (main w) = Done tt.
Proof.
  intros Hdir Hrows Hlines. unfold main, getSchemaFilenames.
  rewrite Hdir, bind_mret. apply main_range_Done.
  intros fileName Hin. apply main_file_Done; [by apply Hrows|].
  intros base ext. by apply Hlines.
Qed.

(** the theorem at the example, with a line that decodes, a line whose
    flag does not parse and a line longer than the schema *)
Lemma well_formed_run_ends_normally_witness :
  outcome (main (oneFile idFlagRows ["042T"; "007X"; "  1F and more"])) = Done tt.
Proof.
  apply (well_formed_run_ends_normally _ ["s.csv"]); [reflexivity| |].
  - intros fileName _. compute_done.
  - intros fileName base ext _ _ _. unfold go_string. compute_done.
Defined.

(** ** More of the decoder *)

(** X14. A schema without BOOLEAN and INTEGER fields cannot fail on a
    line that is long enough: where no width is negative and the line is
    at least as long as the total width, [getRecordJson] returns a JSON
    text with a nil error, and logs nothing. *)
Theorem text_never_fails (dataRecord : string) (schema : list Field) :
  Forall (λ field, 0 <= Width field
                   ∧ Type_ field ≠ DATA_TYPE_BOOLEAN ∧ Type_ field ≠ DATA_TYPE_INTEGER)
    schema →
  go_string dataRecord →
  totalWidth schema <= len dataRecord →
  ∃ jsonData, getRecordJson dataRecord schema = mkIO [] (Done (jsonData, None)).
Proof.
  intros Hschema Hgo Hlen.
  destruct (getRecordJson_no_panic dataRecord schema) as [[jsonData err] Hr]; [|done..|].
  { eapply Forall_impl; [exact Hschema|]. by intros ? [? _]. }
  destruct (getRecordJson dataRecord schema) as [tr o] eqn:Hrun.
  cbn [outcome] in Hr. subst o. destruct err as [e|].
  - destruct (getRecordJson_error _ _ _ _ _ Hrun) as (field & lo & hi & raw & Hin & _ & Htype).
    pose proof (proj1 (Forall_forall _ _) Hschema field Hin) as (_ & Hb & Hi).
    by destruct Htype as [[? _]|[? _]].
  - exists jsonData. destruct (getRecordJson_Done_inv _ _ _ _ Hrun) as (data & Hloop & _).
    by rewrite (getRecordJson_range_silent _ _ _ _ _ _ Hloop).
Qed.

(** the theorem at a schema of two TEXT fields *)
Lemma text_never_fails_witness :
  ∃ jsonData,
    getRecordJson " ab  cd, and more"
      [ {| Name := "x"; Width := 4; Type_ := "TEXT" |};
        {| Name := "y"; Width := 0; Type_ := "TEXT" |};
        {| Name := "z"; Width := 3; Type_ := "TEXT" |} ]
    = mkIO [] (Done (jsonData, None)).
Proof.
  apply text_never_fails.
  - compute_done.
  - unfold go_string. compute_done.
  - compute_done.
Defined.



(** the loop over [good ++ rest], once it went through [good] *)
Lemma getRecordJson_range_app dataRecord good rest :
  ∀ startIndex data tr data',
  getRecordJson_range dataRecord good startIndex data = mkIO tr (Done (Next data')) →
  getRecordJson_range dataRecord (good ++ rest) startIndex data
  = getRecordJson_range dataRecord rest (endIndex startIndex good) data'.
Proof.
  induction good as [|field good IH]; intros startIndex data tr data'.
  { by intros [= _ <-]. }
  rewrite <- app_comm_cons. cbn [getRecordJson_range endIndex foldl]. unfold sliceIO.
  destruct (slice _ _ _) as [raw|]; [rewrite !bind_mret|by rewrite bind_raise].
  repeat case_decide; repeat case_match; rewrite ?bind_Printf; try done; apply IH.
Qed.

(** X16. The first field that does not parse decides, and the fields
    after it are not looked at. If the line decodes under the fields
    [good], and the trimmed bytes of the next field, a BOOLEAN or an
    INTEGER, do not parse, then under any schema that continues
    [good] with that field [getRecordJson] returns the error of that
    parse after one line of log, whatever fields follow and however
    short the line is for them. *)
Theorem first_failure_decides (dataRecord : string) (good : list Field) (field : Field)
    (rest : list Field) (tr : list event) (jsonData raw : string) (e : error) :
  getRecordJson dataRecord good = mkIO tr (Done (jsonData, None)) →
  slice dataRecord (endIndex 0 good) (wrap (endIndex 0 good + Width field)) = Some raw →
  (Type_ field = DATA_TYPE_BOOLEAN
   ∧ (strconv.ParseBool (strings.TrimSpace raw)).2 = Some e)
  ∨ (Type_ field = DATA_TYPE_INTEGER
     ∧ (strconv.Atoi (strings.TrimSpace raw)).2 = Some e) →
  getRecordJson dataRecord (good ++ field :: rest)
  = mkIO [Printf (if decide (Type_ field = DATA_TYPE_BOOLEAN)
                  then "Found invalid boolean value: %s"
                  else "Found invalid integer value: %s")
            [FString (strings.TrimSpace raw)]]
      (Done (EmptyString, Some e)).
Proof.
  intros Hgood Hraw Hcase.
  destruct (getRecordJson_Done_inv _ _ _ _ Hgood) as (data & Hloop & _).
  unfold getRecordJson.
  rewrite (getRecordJson_range_app _ _ (field :: rest) _ _ _ _ Hloop).
  cbn [getRecordJson_range]. unfold sliceIO. rewrite Hraw, bind_mret.
  destruct Hcase as [[Ht He]|[Ht He]].
  - rewrite !decide_True by done.
    destruct (strconv.ParseBool _) as [b o]. simpl in He. subst o.
    by rewrite bind_Printf.
  - assert (Hnb : Type_ field ≠ DATA_TYPE_BOOLEAN) by (by rewrite Ht).
    rewrite !(decide_False (P := Type_ field = DATA_TYPE_BOOLEAN)) by done.
    rewrite decide_True by done.
    destruct (strconv.Atoi _) as [n o]. simpl in He. subst o.
    by rewrite bind_Printf.
Qed.

(** the theorem at a line of four bytes whose id does not parse, under
    a schema that goes on for a hundred bytes more *)
Lemma first_failure_decides_witness :
  getRecordJson "T 4x"
    ([ {| Name := "flag"; Width := 1; Type_ := "BOOLEAN" |} ]
     ++ {| Name := "id"; Width := 3; Type_ := "INTEGER" |}
     :: [ {| Name := "note"; Width := 100; Type_ := "TEXT" |} ])
  = mkIO [Printf "Found invalid integer value: %s" [FString "4x"]]
      (Done (EmptyString, Some (NumError "Atoi" "4x" ErrSyntax))).
Proof.
  apply (first_failure_decides "T 4x"
           [ {| Name := "flag"; Width := 1; Type_ := "BOOLEAN" |} ]
           {| Name := "id"; Width := 3; Type_ := "INTEGER" |}
           [ {| Name := "note"; Width := 100; Type_ := "TEXT" |} ]
           [] ("{" +:+ json.quote "flag" +:+ ":true}") " 4x").
  - vm_compute. reflexivity.
  - reflexivity.
  - right. split; reflexivity.
Defined.

(** the entries after the loop, without any condition on the names *)
Lemma getRecordJson_range_last dataRecord schema :
  ∀ startIndex data tr data',
  Forall (λ field, is_int (Width field)) schema →
  Forall (λ field, Type_ field ∈ vocabulary) schema →
  0 <= startIndex <= max_int →
  getRecordJson_range dataRecord schema startIndex data = mkIO tr (Done (Next data')) →
  dom data' = dom data ∪ list_to_set (Name <$> schema)
  ∧ (∀ k, k ∉ Name <$> schema → data' !! k = data !! k)
  ∧ (∀ i field, schema !! i = Some field →
       (∀ j later, (i < j)%nat → schema !! j = Some later → Name later ≠ Name field) →
       ∃ raw v,
         slice dataRecord (startIndex + offsetOf schema i)
           (startIndex + offsetOf schema i + Width field) = Some raw
         ∧ typedValue field (strings.TrimSpace raw) = Some v
         ∧ data' !! Name field = Some v).
Proof.
  induction schema as [|field schema IH];
    intros startIndex data tr data' Hint Hvoc Hstart Hrun.
  { simpl in Hrun. injection Hrun as _ <-. simpl.
    split; [by rewrite (right_id_L ∅ (∪))|]. split; [done|].
    intros i f Hi. by rewrite lookup_nil in Hi. }
  apply Forall_cons in Hint as [Hw Hint]. apply Forall_cons in Hvoc as [Hv Hvoc].
  destruct (getRecordJson_range_Next _ _ _ _ _ Hw Hstart _ _ Hrun)
    as (raw & Hraw & Hpos & Hmax & [(v & Hv' & _ & Hrest)|[Hno _]]); [|done].
  destruct (IH (startIndex + Width field) (<[Name field := v]> data) tr data'
              Hint Hvoc) as (Hdom & Hframe & Hfields); [lia|exact Hrest|].
  split; [|split].
  - rewrite Hdom, dom_insert_L, fmap_cons, list_to_set_cons.
    by rewrite (comm_L (∪) {[Name field]} (dom data)), (assoc_L (∪)).
  - intros k Hk. rewrite fmap_cons in Hk. apply not_elem_of_cons in Hk as [Hk1 Hk2].
    by rewrite Hframe, lookup_insert_ne.
  - intros [|i] f Hi Hlast; simpl in Hi.
    + injection Hi as <-. exists raw, v. unfold offsetOf. simpl.
      rewrite Z.add_0_r. split; [done|]. split; [done|].
      rewrite Hframe, lookup_insert_eq; [done|].
      intros Hin. apply list_elem_of_fmap in Hin as (later & Hname & Hin).
      apply list_elem_of_lookup in Hin as [j Hj].
      by apply (Hlast (S j) later ltac:(lia) Hj).
    + destruct (Hfields i f Hi) as (raw' & v' & Hraw' & Hv'' & Hl).
      { intros j later Hij Hj. apply (Hlast (S j) later); [lia|done]. }
      exists raw', v'. split; [|done].
      unfold offsetOf in *. simpl. by rewrite !Z.add_assoc.
Qed.

(** X17. Fields that share a name share an entry, and the last one
    wins. For a schema whose types are of the vocabulary (the widths
    being Go ints) and a line on which [getRecordJson] succeeds, the keys
    of the decoded record are the names of the fields, and the name of
    every field that no later field repeats is mapped to the typed value
    of that field. *)
Theorem last_field_wins (dataRecord : string) (schema : list Field)
    (tr : list event) (jsonData : string) :
  Forall (λ field, Type_ field ∈ vocabulary) schema →
  Forall (λ field, is_int (Width field)) schema →
  getRecordJson dataRecord schema = mkIO tr (Done (jsonData, None)) →
  ∃ data : gmap string value,
    getRecordJson_range dataRecord schema 0 ∅ = mkIO tr (Done (Next data))
    ∧ json.Marshal data = (jsonData, None)
    ∧ dom data = list_to_set (Name <$> schema)
    ∧ ∀ i field, schema !! i = Some field →
        (∀ j later, (i < j)%nat → schema !! j = Some later → Name later ≠ Name field) →
        ∃ raw v,
          slice dataRecord (offsetOf schema i) (offsetOf schema i + Width field) = Some raw
          ∧ typedValue field (strings.TrimSpace raw) = Some v
          ∧ data !! Name field = Some v.
Proof.
  intros Hvoc Hint Hrun.
  apply getRecordJson_Done_inv in Hrun as (data & Hloop & Hjson).
  exists data. do 2 (split; [done|]).
  destruct (getRecordJson_range_last dataRecord schema 0 ∅ tr data Hint Hvoc)
    as (Hdom & _ & Hfields); [unfold max_int; lia|done|].
  split; [by rewrite Hdom, dom_empty_L, (left_id_L ∅ (∪))|].
  intros i field Hi Hlast. destruct (Hfields i field Hi Hlast) as (raw & v & Hraw & Hv & Hl).
  exists raw, v. by rewrite !Z.add_0_l in Hraw.
Qed.

(** the theorem at a schema that names two of its three fields [a] *)
Lemma last_field_wins_witness :
  let schema := [ {| Name := "a"; Width := 1; Type_ := "TEXT" |};
                  {| Name := "b"; Width := 1; Type_ := "INTEGER" |};
                  {| Name := "a"; Width := 1; Type_ := "BOOLEAN" |} ] in
  ∃ data : gmap string value,
    getRecordJson_range "x7T" schema 0 ∅ = mkIO [] (Done (Next data))
    ∧ json.Marshal data = ((json.Marshal (<["a" := VBool true]> (<["b" := VInt 7]> ∅))).1, None)
    ∧ dom data = list_to_set (Name <$> schema)
    ∧ ∀ i field, schema !! i = Some field →
        (∀ j later, (i < j)%nat → schema !! j = Some later → Name later ≠ Name field) →
        ∃ raw v,
          slice "x7T" (offsetOf schema i) (offsetOf schema i + Width field) = Some raw
          ∧ typedValue field (strings.TrimSpace raw) = Some v
          ∧ data !! Name field = Some v.
Proof.
  intros schema. apply (last_field_wins "x7T" schema []).
  - compute_done.
  - compute_done.
  - vm_compute. reflexivity.
Defined.

(** X18. The general form of the short line. For every schema (of
    int widths) and every line shorter than the total width of the
    schema, [getRecordJson] never succeeds and has no error of its own
    for the short line: it panics with the slice out of range, unless a
    BOOLEAN or INTEGER field that still lies within the line fails to
    parse first, in which case it returns that error. *)
Theorem short_line_never_decodes (dataRecord : string) (schema : list Field) :
  Forall (λ field, is_int (Width field)) schema →
  len dataRecord < totalWidth schema →
  match outcome (getRecordJson dataRecord schema) with
  | Panicked p => p = SliceBoundsOutOfRange
  | Done (_, Some e) => InvalidBoolean e ∨ InvalidInteger e
  | Done (_, None) => False
  end.
Proof. apply short_line_outcome. Qed.

(** the theorem at the example schema, for a line that panics and for a
    line that returns an error *)
Lemma short_line_never_decodes_witness :
  outcome (getRecordJson "04" idFlag) = Panicked SliceBoundsOutOfRange
  ∧ ∃ jsonData e, outcome (getRecordJson "x" (rev idFlag)) = Done (jsonData, Some e)
                  ∧ (InvalidBoolean e ∨ InvalidInteger e).
Proof.
  split.
  - pose proof (short_line_never_decodes "04" idFlag ltac:(compute_done)
                  ltac:(vm_compute; reflexivity)) as H.
    destruct (outcome (getRecordJson "04" idFlag)) as [[? [?|]]|p] eqn:Ho;
      [discriminate Ho|discriminate Ho|by rewrite H].
  - pose proof (short_line_never_decodes "x" (rev idFlag) ltac:(compute_done)
                  ltac:(vm_compute; reflexivity)) as H.
    destruct (outcome (getRecordJson "x" (rev idFlag))) as [[js [e|]]|p] eqn:Ho;
      [by exists js, e|discriminate Ho|discriminate Ho].
Defined.

(** ** More of the run *)

(** X19. The fatal case. If the schemas directory cannot be listed,
    [main] logs the error, writes it once more through [log.Panic] and
    panics with it; it opens no file and posts nothing. *)
Theorem listing_failure_is_fatal (w : World) (e : error) :
  (ReadDir w "schemas").2 = Some e →
  main w = mkIO [Printf "Got error attempting to list schema files: %+v" [FError e];
                 Print [FError e]] (Panicked (LogPanic e))
  ∧ posts (trace (main w)) = []
  ∧ ∀ name, Open name ∉ trace (main w).
Proof.
  intros Herr. rewrite (unlisted_directory_panics w e Herr). cbn [trace].
  split; [done|]. split; [done|]. intros name.
  rewrite !elem_of_cons, elem_of_nil. by intros [[=]|[[=]|[]]].
Qed.

(** the theorem at a world without a schemas directory *)
Lemma listing_failure_is_fatal_witness :
  let e := ioError "open schemas: no such file or directory" in
  let w := {| ReadDir := λ _, ([], Some e);
              OpenErr := λ _, None;
              ReadAll := λ _, ([], None);
              Scan := λ _, ([], None);
              Respond := Respond (oneFile [] []) |} in
  main w = mkIO [Printf "Got error attempting to list schema files: %+v" [FError e];
                 Print [FError e]] (Panicked (LogPanic e))
  ∧ posts (trace (main w)) = []
  ∧ ∀ name, Open name ∉ trace (main w).
Proof. intros e w. apply (listing_failure_is_fatal w e). reflexivity. Defined.

(** the turn for a file whose schema loads and whose data file is read *)
Lemma main_file_loaded w fileName base ext tr schema dataRecords :
  fileName = base +:+ String "." ext → "."%char ∉ bytes ext →
  getSchema w fileName = mkIO tr (Done (schema, None)) →
  OpenErr w ("data/" +:+ base +:+ ".txt") = None →
  Scan w ("data/" +:+ base +:+ ".txt") = (dataRecords, None) →
  main_file w fileName
  = after (tr ++ [Open ("data/" +:+ base +:+ ".txt")]) (main_records w schema dataRecords).
Proof.
  intros Hname Hext Hload Hopen Hscan.
  pose proof (dataFileNameOf_dot base ext Hext) as Hpair. rewrite <- Hname in Hpair.
  unfold main_file. rewrite Hload, bind_Done_after, Hpair, bind_mret.
  unfold getData. rewrite bind_Open, Hopen, Hscan, bind_after, bind_mret.
  unfold after. cbn [trace outcome]. by rewrite <- app_assoc.
Qed.

Lemma getSchema_posts w fileName : posts (trace (getSchema w fileName)) = [].
Proof.
  destruct (getSchema_events w fileName) as (tr & -> & Hlog).
  change (posts tr = []). by apply posts_Printf.
Qed.

(** X20. What is posted for a file. With the schema loaded, the
    data file named, opened and read to its end, and [getRecordJson]
    returning on each of its lines, the turn of the coordinator ends
    normally and posts the JSON texts of the lines that decode, each
    once, in the order of the file, and nothing else. *)
Theorem file_posts (w : World) (fileName base ext : string) (tr : list event)
    (schema : list Field) (dataRecords : list string) :
  fileName = base +:+ String "." ext → "."%char ∉ bytes ext →
  getSchema w fileName = mkIO tr (Done (schema, None)) →
  OpenErr w ("data/" +:+ base +:+ ".txt") = None →
  Scan w ("data/" +:+ base +:+ ".txt") = (dataRecords, None) →
  Forall (returns schema) dataRecords →
  outcome (main_file w fileName) = Done tt
  ∧ posts (trace (main_file w fileName)) = omap (jsonOf schema) dataRecords.
Proof.
  intros Hname Hext Hload Hopen Hscan Hlines.
  rewrite (main_file_loaded _ _ _ _ _ _ _ Hname Hext Hload Hopen Hscan).
  destruct (main_records_returns w schema dataRecords Hlines) as (Ho & Hp & _).
  unfold after. cbn [trace outcome]. split; [done|].
  pose proof (getSchema_posts w fileName) as Htr. rewrite Hload in Htr. cbn [trace] in Htr.
  by rewrite !posts_app, Htr, Hp.
Qed.

(** the theorem at the example, for three lines of which the second
    does not decode *)
Lemma file_posts_witness :
  let w := oneFile idFlagRows ["042T"; "007X"; "  1F"] in
  outcome (main_file w "s.csv") = Done tt
  ∧ posts (trace (main_file w "s.csv")) = omap (jsonOf idFlag) ["042T"; "007X"; "  1F"].
Proof.
  intros w.
  apply (file_posts w "s.csv" "s" "csv" [Open "schemas/s.csv"] idFlag);
    [reflexivity|compute_done|reflexivity|reflexivity|reflexivity|].
  repeat (apply Forall_cons_2; [by eexists|]). apply Forall_nil_2.
Defined.

(** X21. A schema file without rows loads as the schema without
    fields, under which every line decodes, the empty line too, to the
    empty JSON object: the coordinator posts one [{}] per line of the
    data file. *)
Theorem empty_schema_posts_empty_objects (w : World) (fileName base ext : string)
    (dataRecords : list string) :
  fileName = base +:+ String "." ext → "."%char ∉ bytes ext →
  OpenErr w ("schemas/" +:+ fileName) = None →
  ReadAll w ("schemas/" +:+ fileName) = ([], None) →
  OpenErr w ("data/" +:+ base +:+ ".txt") = None →
  Scan w ("data/" +:+ base +:+ ".txt") = (dataRecords, None) →
  getSchema w fileName = mkIO [Open ("schemas/" +:+ fileName)] (Done ([], None))
  ∧ outcome (main_file w fileName) = Done tt
  ∧ posts (trace (main_file w fileName)) = replicate (length dataRecords) "{}".
Proof.
  intros Hname Hext Hopen Hread Hdopen Hscan.
  assert (Hload : getSchema w fileName
                  = mkIO [Open ("schemas/" +:+ fileName)] (Done ([], None))).
  { by apply (getSchema_all_valid w fileName [] Hopen Hread). }
  split; [done|].
  rewrite (main_file_loaded _ _ _ _ _ _ _ Hname Hext Hload Hdopen Hscan).
  destruct (main_records_returns w [] dataRecords) as (Ho & Hp & _).
  { apply Forall_forall. intros line _. by eexists. }
  unfold after. cbn [trace outcome]. split; [done|].
  rewrite !posts_app, Hp. cbn [posts omap list_omap app]. clear.
  induction dataRecords as [|line dataRecords IH]; [done|].
  cbn [omap list_omap length replicate]. by rewrite IH.
Qed.

(** the theorem at an empty schema file and a data file of three lines *)
Lemma empty_schema_posts_empty_objects_witness :
  let w := oneFile [] ["042T"; EmptyString; "anything"] in
  getSchema w "s.csv" = mkIO [Open "schemas/s.csv"] (Done ([], None))
  ∧ outcome (main_file w "s.csv") = Done tt
  ∧ posts (trace (main_file w "s.csv")) = replicate 3 "{}".
Proof.
  intros w.
  apply (empty_schema_posts_empty_objects w "s.csv" "s" "csv"
           ["042T"; EmptyString; "anything"]);
    [reflexivity|compute_done|reflexivity..].
Defined.
